(** * qpsolvers: normalization, dispatch, and the PIQP and HiGHS adapters

    A shallow embedding of [qpsolvers/solve_qp.py] ([solve_qp],
    [solve_safer_qp]), [qpsolvers/solvers/piqp_.py] ([__select_backend],
    [piqp_solve_problem], [piqp_solve_qp]) and [qpsolvers/solvers/highs_.py]
    ([__set_hessian], [__set_columns], [__set_rows], [highs_solve_qp]).

    Scalars.  The Python code computes with IEEE doubles.  Every statement
    below that involves arithmetic is about the exact values, so scalars are
    rationals ([Q]) and numeric equalities are [Qeq].

    Objects.  numpy arrays are mutable objects that the code passes around by
    reference, and several numpy operations return views that share their
    operand's buffer.  The heap maps a location to the array stored there, an
    object is a location together with the view through which it is read, and
    Python code is a function from heaps to a heap and an outcome. *)

From Stdlib Require Import QArith Lia Lqa.
From stdpp Require Import gmap strings list fin_maps.

Set Default Proof Using "Type".

(** ** Outcomes of Python code *)

Inductive exn :=
| ValueError
| KeyError
| TypeError
| AttributeError
| AssertionError
| ProblemError
| ParamError
| SolverNotFound (solver : string)
| BackendError (name : string).

Inductive result (A : Type) :=
| Ok (a : A)
| Raise (e : exn).
Arguments Ok {A} a.
Arguments Raise {A} e.

Definition rbind {A B} (r : result A) (k : A → result B) : result B :=
  match r with
  | Ok a => k a
  | Raise e => Raise e
  end.

Global Instance result_ret : MRet result := @Ok.
Global Instance result_bind : MBind result := λ A B k r, rbind r k.

(** ** numpy values *)

Module np.

Local Open Scope Q_scope.

(** [tab r c f] is the r-by-c table of [f]. *)
Definition tab (r c : nat) (f : nat → nat → Q) : list (list Q) :=
  map (λ i, map (λ j, f i j) (seq 0 c)) (seq 0 r).

Definition entry (rows : list (list Q)) (i j : nat) : Q :=
  nth j (nth i rows []) 0.

(** A [numpy.ndarray] of one or two dimensions.  A two-dimensional array
    carries its number of columns, so that arrays without rows keep their
    shape. *)
Inductive ndarray :=
| Arr1 (v : list Q)
| Arr2 (c : nat) (rows : list (list Q)).

(** A [scipy.sparse.csc_matrix], seen through its entries. *)
Inductive csc_matrix :=
| Csc (c : nat) (rows : list (list Q)).

Definition ndim (a : ndarray) : nat :=
  match a with Arr1 _ => 1 | Arr2 _ _ => 2 end.

(** [a.shape[0]] *)
Definition shape0 (a : ndarray) : nat :=
  match a with Arr1 v => length v | Arr2 _ rows => length rows end.

Definition wf_rows (r c : nat) (rows : list (list Q)) : Prop :=
  length rows = r ∧ Forall (λ row, length row = c) rows.

Definition eye (m : nat) : ndarray :=
  Arr2 m (tab m m (λ i j, if Nat.eqb i j then 1 else 0)).

(** [zeros((m, n))] and [zeros(m)], [ones(m)] *)
Definition zeros2 (m n : nat) : ndarray := Arr2 n (replicate m (replicate n 0)).
Definition zeros (m : nat) : ndarray := Arr1 (replicate m 0).
Definition ones (m : nat) : ndarray := Arr1 (replicate m 1).

(** [a.T]: a one-dimensional array is its own transpose. *)
Definition transpose (a : ndarray) : ndarray :=
  match a with
  | Arr1 v => Arr1 v
  | Arr2 c rows => Arr2 (length rows) (tab c (length rows) (λ i j, entry rows j i))
  end.

(** [k * a] and [-a] *)
Definition scal (k : Q) (a : ndarray) : ndarray :=
  match a with
  | Arr1 v => Arr1 (map (Qmult k) v)
  | Arr2 c rows => Arr2 c (map (map (Qmult k)) rows)
  end.

Definition neg (a : ndarray) : ndarray :=
  match a with
  | Arr1 v => Arr1 (map Qopp v)
  | Arr2 c rows => Arr2 c (map (map Qopp) rows)
  end.

(** Broadcasting of one axis: equal lengths, or one of them is 1. *)
Definition bdim (d1 d2 : nat) : result nat :=
  if Nat.eqb d1 d2 then Ok d1
  else if Nat.eqb d1 1 then Ok d2
  else if Nat.eqb d2 1 then Ok d1
  else Raise ValueError.

Definition bidx (d i : nat) : nat := if Nat.eqb d 1 then 0%nat else i.

(** A 1-d array takes part in broadcasting as a single row. *)
Definition rows2d (a : ndarray) : nat * nat * list (list Q) :=
  match a with
  | Arr1 v => (1%nat, length v, [v])
  | Arr2 c rows => (length rows, c, rows)
  end.

(** [a + b] with numpy's broadcasting; shapes that do not broadcast raise
    ValueError. *)
Definition add (a b : ndarray) : result ndarray :=
  let '(r1, c1, A) := rows2d a in
  let '(r2, c2, B) := rows2d b in
  r ← bdim r1 r2;
  c ← bdim c1 c2;
  let f i j := entry A (bidx r1 i) (bidx c1 j) + entry B (bidx r2 i) (bidx c2 j) in
  Ok (match a, b with
      | Arr1 _, Arr1 _ => Arr1 (map (f 0%nat) (seq 0 c))
      | _, _ => Arr2 c (tab r c f)
      end).

(** [hstack([a, b])]: 1-d arrays are concatenated; otherwise the arrays are
    joined along the second axis and must have the same number of dimensions
    and of rows. *)
Definition hstack (a b : ndarray) : result ndarray :=
  match a, b with
  | Arr1 u, Arr1 v => Ok (Arr1 (u ++ v))
  | Arr2 c1 A, Arr2 c2 B =>
      if Nat.eqb (length A) (length B)
      then Ok (Arr2 (c1 + c2) (zip_with app A B))
      else Raise ValueError
  | _, _ => Raise ValueError
  end.

(** [vstack([a, b])]: 1-d arrays count as single rows; the numbers of columns
    must agree. *)
Definition vstack (a b : ndarray) : result ndarray :=
  let '(_, c1, A) := rows2d a in
  let '(_, c2, B) := rows2d b in
  if Nat.eqb c1 c2 then Ok (Arr2 c1 (A ++ B)) else Raise ValueError.

(** Sparse matrices add only when their shapes are equal. *)
Definition csc_transpose (s : csc_matrix) : csc_matrix :=
  match s with
  | Csc c rows => Csc (length rows) (tab c (length rows) (λ i j, entry rows j i))
  end.

Definition csc_add (s t : csc_matrix) : result csc_matrix :=
  match s, t with
  | Csc c1 A, Csc c2 B =>
      if Nat.eqb (length A) (length B) && Nat.eqb c1 c2
      then Ok (Csc c1 (tab (length A) c1 (λ i j, entry A i j + entry B i j)))
      else Raise ValueError
  end.

Definition csc_scal (k : Q) (s : csc_matrix) : csc_matrix :=
  match s with Csc c rows => Csc c (map (map (Qmult k)) rows) end.

(** Products used to read a quadratic program. *)
Fixpoint dot (u v : list Q) : Q :=
  match u, v with
  | a :: u', b :: v' => a * b + dot u' v'
  | _, _ => 0
  end.

Definition matvec (rows : list (list Q)) (x : list Q) : list Q :=
  map (λ row, dot row x) rows.

Definition vsum (v : list Q) : Q := fold_right Qplus 0 v.

End np.

(** ** Python objects *)

(** What a heap cell holds: the [Matrix] union of [qpsolvers.typing]. *)
Inductive pyarr :=
| Nd (a : np.ndarray)
| Sp (s : np.csc_matrix).

Abbreviation loc := nat.
Abbreviation heap := (list pyarr).

(** numpy operations that return a view on their operand. *)
Inductive view_op :=
| AsRow                             (* a.reshape((1, a.shape[0])), a 1-d *)
| Slice (start stop : option Z).    (* a[start:stop] *)

(** An array object: the buffer it reads and the views taken of it. *)
Record obj := Obj { base : loc; view : list view_op }.

(** Python's [l[start:stop]]: a negative index counts from the end, and both
    ends are clipped to the list. *)
Definition slice_bound (len : nat) (i : Z) : nat :=
  Z.to_nat (if (i <? 0)%Z then Z.max (i + Z.of_nat len) 0 else Z.min i (Z.of_nat len)).

Definition py_slice {A} (start stop : option Z) (l : list A) : list A :=
  let lo := from_option (slice_bound (length l)) 0 start in
  let hi := from_option (slice_bound (length l)) (length l) stop in
  take (hi - lo) (drop lo l).

Definition apply_view (a : pyarr) (v : view_op) : pyarr :=
  match v, a with
  | AsRow, Nd (np.Arr1 v) => Nd (np.Arr2 (length v) [v])
  | AsRow, _ => a
  | Slice i j, Nd (np.Arr1 v) => Nd (np.Arr1 (py_slice i j v))
  | Slice i j, Nd (np.Arr2 c rows) => Nd (np.Arr2 c (py_slice i j rows))
  | Slice i j, Sp (np.Csc c rows) => Sp (np.Csc c (py_slice i j rows))
  end.

(** The array an object denotes in a heap. *)
Definition load (σ : heap) (o : obj) : pyarr :=
  foldl apply_view (default (Nd (np.Arr1 [])) (σ !! base o)) (view o).

(** [a[start:stop]] as an object: a view on the same buffer. *)
Definition slice_obj (a : obj) (start stop : option Z) : obj :=
  Obj (base a) (view a ++ [Slice start stop]).

(** [isinstance(a, ndarray)], [a.ndim], [a.shape[0]] *)
Definition is_ndarray (a : pyarr) : bool :=
  match a with Nd _ => true | Sp _ => false end.

Definition ndim (a : pyarr) : nat :=
  match a with Nd a => np.ndim a | Sp _ => 2 end.

Definition shape0 (a : pyarr) : nat :=
  match a with Nd a => np.shape0 a | Sp (np.Csc _ rows) => length rows end.

(** Modelled from the spec: the [Problem] class of [qpsolvers.problem], whose
    code is not given.  A problem bundles (P, q, G, h, A, b, lb, ub) and
    [unpack] returns the eight components in that order.  What the
    constructor checks and does to its arguments is not fixed here: the code
    that calls it takes it as a parameter. *)
Module Problem.
Record t := Build { P : obj; q : obj; G : option obj; h : option obj;
                    A : option obj; b : option obj; lb : option obj; ub : option obj }.

Definition unpack (p : t) :=
  (P p, q p, G p, h p, A p, b p, lb p, ub p).
End Problem.

(** Values that travel through argument lists and [**kwargs]. *)
Inductive pyval :=
| VNone
| VBool (b : bool)
| VStr (s : string)
| VNum (x : Q)
| VArr (o : obj)
| VProblem (p : Problem.t).

Definition of_option (o : option obj) : pyval :=
  match o with Some a => VArr a | None => VNone end.

(** ** Python code: heap passing with exceptions *)

Definition M (A : Type) : Type := heap → heap * result A.

Definition ret {A} (a : A) : M A := λ σ, (σ, Ok a).
Definition raise {A} (e : exn) : M A := λ σ, (σ, Raise e).
Definition bind {A B} (m : M A) (k : A → M B) : M B :=
  λ σ, match m σ with
       | (σ', Ok a) => k a σ'
       | (σ', Raise e) => (σ', Raise e)
       end.

Global Instance M_ret : MRet M := @ret.
Global Instance M_bind : MBind M := λ A B k m, bind m k.

(** [try: m  except Exception as e: h e] *)
Definition try_except {A} (m : M A) (h : exn → M A) : M A :=
  λ σ, match m σ with
       | (σ', Ok a) => (σ', Ok a)
       | (σ', Raise e) => h e σ'
       end.

Definition lift {A} (r : result A) : M A := λ σ, (σ, r).

(** Reading an object, and creating one for a fresh array. *)
Definition gets {A} (f : heap → A) : M A := λ σ, (σ, Ok (f σ)).
Definition get (o : obj) : M pyarr := gets (λ σ, load σ o).
Definition new (a : pyarr) : M obj := λ σ, (σ ++ [a], Ok (Obj (length σ) [])).

(** [assert c] *)
Definition assert (c : bool) : M unit :=
  if c then ret tt else raise AssertionError.

(** A computation keeps the heap it is given when every cell that exists
    before it runs holds the same array after it. *)
Definition keeps_heap {A} (m : M A) : Prop := ∀ σ, σ `prefix_of` (m σ).1.

(** ** qpsolvers/solve_qp.py *)

(** A solver adapter, called as [f(P, q, G, h, A, b, **kwargs)]: it may read
    and write the heap, return a vector or [None], or raise. *)
Abbreviation adapter :=
  (obj → obj → option obj → option obj → option obj → option obj →
   gmap string pyval → M (option obj)).

(** The arrays that [hstack] and [vstack] take are dense. *)
Definition dense (a : pyarr) : result np.ndarray :=
  match a with Nd a => Ok a | Sp _ => Raise ValueError end.

(** [0.5 * (P + P.transpose())], on a dense array or on a sparse matrix *)
Definition half_sum_transpose (a : pyarr) : result pyarr :=
  match a with
  | Nd a => s ← np.add a (np.transpose a); Ok (Nd (np.scal (1 # 2) s))
  | Sp s => t ← np.csc_add s (np.csc_transpose s); Ok (Sp (np.csc_scal (1 # 2) t))
  end.

(** The entries of [0.5 * (P + P.transpose())] for a square P. *)
Definition sym_entry (rows : list (list Q)) (i j : nat) : Q :=
  ((1 # 2) * (np.entry rows i j + np.entry rows j i))%Q.

(** [if sym_proj: P = 0.5 * (P + P.transpose())] *)
Definition sym_proj_step (sym_proj : bool) (P : obj) : M obj :=
  if sym_proj then
    a ← get P;
    s ← lift (half_sum_transpose a);
    new s
  else mret P.

(** [isinstance(A, ndarray) and A.ndim == 1], and the view
    [A.reshape((1, A.shape[0]))] *)
Definition is_flat (a : pyarr) : bool := is_ndarray a && Nat.eqb (ndim a) 1.

Definition as_row (o : obj) : obj := Obj (base o) (view o ++ [AsRow]).

(** [if isinstance(A, ndarray) and A.ndim == 1: A = A.reshape((1, A.shape[0]))] *)
Definition reshape_step (A : option obj) : M (option obj) :=
  match A with
  | None => mret None
  | Some o =>
      a ← get o;
      if is_flat a then mret (Some (as_row o)) else mret (Some o)
  end.

(** What [reshape_step] returns: the row view of a flat array, and any
    other argument as it is. *)
Definition reshaped (σ : heap) (A : option obj) : option obj :=
  match A with
  | Some o => if is_flat (load σ o) then Some (as_row o) else Some o
  | None => None
  end.

Section solve_qp.

(** Imported by [solve_qp.py] from modules whose code is not given. *)
Variable check_problem_constraints :
  option obj → option obj → option obj → option obj → M unit.
Variable concatenate_bounds :
  option obj → option obj → option obj → option obj → M (option obj * option obj).
Variable solve_function : gmap string adapter.
Variable dense_solvers : list string.

(** [solve_function[solver](P, q, G, h, A, b, **kwargs)]: the subscript
    raises KeyError for a missing key, then the adapter is called. *)
Definition dispatch (solver : string) (P q : obj) (G h A b : option obj)
    (kwargs : gmap string pyval) : M (option obj) :=
  match solve_function !! solver with
  | None => raise KeyError
  | Some f => f P q G h A b kwargs
  end.

(** Lines 117-126: what [solve_qp] does to its arguments before it turns
    to the solver. *)
Definition normalize (P : obj) (G h A b lb ub : option obj)
    (initvals : option obj) (sym_proj verbose : bool)
    (kwargs : gmap string pyval) :
    M (obj * option obj * option obj * option obj * gmap string pyval) :=
  P ← sym_proj_step sym_proj P;
  A ← reshape_step A;
  G ← reshape_step G;
  check_problem_constraints G h A b;;
  Gh ← concatenate_bounds G h lb ub;
  let G := Gh.1 in
  let h := Gh.2 in
  let kwargs := <["initvals" := of_option initvals]> kwargs in
  let kwargs := <["verbose" := VBool verbose]> kwargs in
  mret (P, G, h, A, kwargs).

(** [except KeyError as e: raise SolverNotFound(...) from e] *)
Definition on_KeyError (solver : string) (e : exn) : M (option obj) :=
  match e with
  | KeyError => raise (SolverNotFound solver)
  | _ => raise e
  end.

Definition solve_qp (P q : obj) (G h A b lb ub : option obj) (solver : string)
    (initvals : option obj) (sym_proj verbose : bool)
    (kwargs : gmap string pyval) : M (option obj) :=
  args ← normalize P G h A b lb ub initvals sym_proj verbose kwargs;
  let '(P, G, h, A, kwargs) := args in
  try_except (dispatch solver P q G h A b kwargs) (on_KeyError solver).

(** Lines 209-216: the arrays of the augmented problem, from the arrays that
    P, q and G hold. *)
Definition augmented_arrays (Pv qv Gv : pyarr) (sw reg : Q) :
    result (np.ndarray * np.ndarray * np.ndarray * np.ndarray * np.ndarray) :=
  let n := shape0 Pv in
  let m := shape0 Gv in
  let E := np.eye m in
  let Z := np.zeros2 m n in
  P2 ← (a ← dense Pv;
        top ← np.hstack a (np.transpose Z);
        bot ← np.hstack Z (np.scal reg (np.eye m));
        np.vstack top bot);
  q2 ← (a ← dense qv; np.hstack a (np.scal (- sw) (np.ones m)));
  G2 ← np.hstack Z E;
  let h2 := np.zeros m in
  A2 ← (a ← dense Gv; np.hstack a (np.neg E));
  Ok (P2, q2, G2, h2, A2).

(** The objects passed on to [solve_qp]: five new arrays, and [h] itself as
    [b2].  Temporary arrays, which nothing refers to afterwards, are not
    kept in the heap. *)
Definition augmented_problem (P q G h : obj) (sw reg : Q) :
    M (obj * obj * obj * obj * obj * obj) :=
  Pv ← get P;
  qv ← get q;
  Gv ← get G;
  arrays ← lift (augmented_arrays Pv qv Gv sw reg);
  let '(P2, q2, G2, h2, A2) := arrays in
  P2 ← new (Nd P2);
  q2 ← new (Nd q2);
  G2 ← new (Nd G2);
  h2 ← new (Nd h2);
  A2 ← new (Nd A2);
  let b2 := h in
  mret (P2, q2, G2, h2, A2, b2).

Definition solve_safer_qp (P q G h : obj) (sw reg : Q) (solver : string)
    (initvals : option obj) (sym_proj : bool) : M (option obj) :=
  assert (bool_decide (solver ∈ dense_solvers));;
  Pv ← get P;
  let n := shape0 Pv in
  aug ← augmented_problem P q G h sw reg;
  let '(P2, q2, G2, h2, A2, b2) := aug in
  x ← solve_qp P2 q2 (Some G2) (Some h2) (Some A2) (Some b2) None None
        solver initvals sym_proj false ∅;
  match x with
  | None => mret None
  | Some x => mret (Some (slice_obj x None (Some (Z.of_nat n))))
  end.

End solve_qp.

(** ** Calling a Python function *)

(** Binding of a call with positional arguments [args] and keyword arguments
    [kwargs] to the positional-or-keyword parameters [params] of a function
    that also takes [**kwargs], the first [required] of which have no
    default.  More positional arguments than parameters, a parameter given
    both ways and a required parameter left without a value are TypeErrors.
    The result is the value of each bound parameter and what is left for the
    function's own [**kwargs]. *)
Definition py_bind (params : list string) (required : nat)
    (args : list pyval) (kwargs : gmap string pyval) :
    result (gmap string pyval * gmap string pyval) :=
  if bool_decide (length params < length args) then Raise TypeError
  else
    let positional : gmap string pyval := list_to_map (zip params args) in
    if bool_decide (Exists (λ p, is_Some (kwargs !! p)) (take (length args) params))
    then Raise TypeError
    else
      let named := filter (λ kv, kv.1 ∈ params) kwargs in
      let bound := positional ∪ named in
      if bool_decide (Forall (λ p, is_Some (bound !! p)) (take required params))
      then Ok (bound, filter (λ kv, kv.1 ∉ params) kwargs)
      else Raise TypeError.

(** ** qpsolvers/solvers/piqp_.py *)

(** The piqp package: solver objects, their [setup] and [solve] methods and
    the [result] they hold afterwards.  [setup] and [solve] update the solver
    object, may use the heap and may raise. *)
Record piqp_api := {
  solver_t : Type;
  info_t : Type;
  SparseSolver : solver_t;
  DenseSolver : solver_t;
  PIQP_SOLVED : Z;
  setup : solver_t → obj → obj → option obj → option obj → option obj → option obj →
          option obj → option obj → bool → gmap string pyval → M solver_t;
  solve : solver_t → M (Z * solver_t);
  result_info : solver_t → info_t;
  result_x : solver_t → obj;
  result_y : solver_t → obj;
  result_z : solver_t → obj;
}.

(** Modelled from the spec: the [Solution] class of [qpsolvers.solution],
    whose code is not given.  [Solution(problem)] refers to its problem and
    has every other field unset. *)
Module Solution.
Record t (info : Type) := Build {
  problem : Problem.t;
  extras : option info;
  found : bool;
  x : option obj;
  y : option obj;
  z : option obj;
  z_box : option obj }.
Arguments Build {info}.
Arguments problem {info}.
Arguments extras {info}.
Arguments found {info}.
Arguments x {info}.
Arguments y {info}.
Arguments z {info}.
Arguments z_box {info}.

Definition init {info} (p : Problem.t) : t info :=
  Build p None false None None None None.
End Solution.

Section piqp.

Variable piqp : piqp_api.

(** Lines 38-65: the solver object for a backend name; [piqp.SparseSolver()]
    and [piqp.DenseSolver()] are new solvers of the package. *)
Definition __select_backend (backend : option string) (use_csc : bool) :
    result (solver_t piqp) :=
  match backend with
  | None => Ok (if use_csc then SparseSolver piqp else DenseSolver piqp)
  | Some s =>
      if String.eqb s "dense" then Ok (DenseSolver piqp)
      else if String.eqb s "sparse" then Ok (SparseSolver piqp)
      else Raise ParamError
  end.

(** The constructor [Problem(P, q, G, h, A, b, lb, ub)], whose code is not
    given: it may raise, and it may build new arrays for the problem it
    returns. *)
Variable Problem_init :
  obj → obj → option obj → option obj → option obj → option obj →
  option obj → option obj → M Problem.t.

(** Imported from [qpsolvers.conversions], whose code is not given. *)
Variable ensure_sparse_matrices :
  obj → option obj → option obj → M (obj * option obj * option obj).

(** [M is not None and not isinstance(M, np.ndarray)] *)
Definition given_not_ndarray (σ : heap) (mat : option obj) : bool :=
  match mat with
  | Some o => negb (is_ndarray (load σ o))
  | None => false
  end.

Definition is_given (v : option obj) : bool :=
  match v with Some _ => true | None => false end.

Definition piqp_solve_problem (problem : Problem.t) (verbose : bool)
    (backend : option string) (kwargs : gmap string pyval) :
    M (Solution.t (info_t piqp)) :=
  let '(P, q, G, h, A, b, lb, ub) := Problem.unpack problem in
  qv ← get q;
  let n := shape0 qv in
  use_csc ← gets (λ σ, negb (is_ndarray (load σ P))
                       || given_not_ndarray σ G
                       || given_not_ndarray σ A);
  PGA ← (if use_csc then ensure_sparse_matrices P G A else mret (P, G, A));
  let '(P, G, A) := PGA in
  solver ← lift (__select_backend backend use_csc);
  solver ← setup piqp solver P q A b G h lb ub verbose kwargs;
  run ← solve piqp solver;
  let '(status, solver) := run in
  let success_status := PIQP_SOLVED piqp in
  let solution : Solution.t (info_t piqp) := Solution.init problem in
  let zr := result_z piqp solver in
  mret (Solution.Build (Solution.problem solution)
          (Some (result_info piqp solver))
          (Z.eqb status success_status)
          (Some (result_x piqp solver))
          (Some (result_y piqp solver))
          (if is_given lb || is_given ub
           then Some (slice_obj zr None (Some (- Z.of_nat n)%Z))
           else Some zr)
          (if is_given lb || is_given ub
           then Some (slice_obj zr (Some (- Z.of_nat n)%Z) None)
           else Solution.z_box solution)).

(** Lines 68-73: [def piqp_solve_problem(problem, verbose=False,
    backend=None, **kwargs)]. *)
Definition piqp_solve_problem_params : list string :=
  ["problem"; "verbose"; "backend"].

(** The body run on bound parameters.  Parameters are taken at their
    annotated types; [problem.unpack()] on anything but a [Problem] is an
    AttributeError. *)
Definition piqp_solve_problem_bound (bound kwargs : gmap string pyval) :
    M (Solution.t (info_t piqp)) :=
  problem ← lift (match bound !! "problem" with
                  | Some (VProblem p) => Ok p
                  | _ => Raise AttributeError
                  end);
  verbose ← lift (match bound !! "verbose" with
                  | None => Ok false
                  | Some (VBool v) => Ok v
                  | Some _ => Raise TypeError
                  end);
  backend ← lift (match bound !! "backend" with
                  | None | Some VNone => Ok None
                  | Some (VStr s) => Ok (Some s)
                  | Some _ => Raise ParamError
                  end);
  piqp_solve_problem problem verbose backend kwargs.

Definition of_backend (backend : option string) : pyval :=
  match backend with Some s => VStr s | None => VNone end.

Definition piqp_solve_qp (P q : obj) (G h A b lb ub : option obj)
    (initvals : option obj) (verbose : bool) (backend : option string)
    (kwargs : gmap string pyval) : M (option obj) :=
  problem ← Problem_init P q G h A b lb ub;
  solution ←
    (binding ← lift (py_bind piqp_solve_problem_params 1
                       [VProblem problem; of_option initvals; VBool verbose;
                        of_backend backend] kwargs);
     piqp_solve_problem_bound binding.1 binding.2);
  mret (if Solution.found solution then Solution.x solution else None).

End piqp.

(** ** The helpers of [solve_qp], from the spec *)

(** Modelled from the spec: [check_problem_constraints] of
    [qpsolvers.check_problem_constraints], whose code is not given.  It checks
    that G and h, and A and b, are given together and agree on the number of
    rows, and fails with ValueError otherwise. *)
Definition check_pair (mat vec : option obj) : M unit :=
  match mat, vec with
  | None, None => mret tt
  | Some mat, Some vec =>
      Mv ← get mat;
      vv ← get vec;
      if Nat.eqb (shape0 Mv) (shape0 vv) then mret tt else raise ValueError
  | _, _ => raise ValueError
  end.

Definition check_problem_constraints (G h A b : option obj) : M unit :=
  check_pair G h;;
  check_pair A b.

(** Modelled from the spec: [concatenate_bounds] of
    [qpsolvers.concatenate_bounds], whose code is not given.  The bounds
    become the rows [-x <= -lb] and [x <= ub], appended to (G, h) in new
    arrays; without bounds (G, h) is returned as it is. *)
Definition append_bound (G h : option obj) (sign : Q) (bound : obj) :
    M (option obj * option obj) :=
  bv ← get bound;
  bv ← lift (dense bv);
  let rows := np.scal sign (np.eye (np.shape0 bv)) in
  let rhs := np.scal sign bv in
  G' ← match G with
       | None => new (Nd rows)
       | Some G =>
           Gv ← get G;
           a ← lift (dense Gv);
           s ← lift (np.vstack a rows);
           new (Nd s)
       end;
  h' ← match h with
       | None => new (Nd rhs)
       | Some h =>
           hv ← get h;
           a ← lift (dense hv);
           s ← lift (np.hstack a rhs);
           new (Nd s)
       end;
  mret (Some G', Some h').

Definition concatenate_bounds (G h lb ub : option obj) : M (option obj * option obj) :=
  Gh ← match lb with
       | Some lb => append_bound G h (-1) lb
       | None => mret (G, h)
       end;
  match ub with
  | Some ub => append_bound Gh.1 Gh.2 1 ub
  | None => mret Gh
  end.

(** ** Reading a quadratic program *)

Module qp.

Local Open Scope Q_scope.

(** [1/2 z^T P z + q^T z] *)
Definition cost (P : list (list Q)) (q z : list Q) : Q :=
  (1 # 2) * np.dot z (np.matvec P z) + np.dot q z.

(** [G z <= h] and [A z = b], row by row *)
Definition ineq (G : list (list Q)) (h z : list Q) : Prop :=
  Forall2 Qle (np.matvec G z) h.

Definition eq (A : list (list Q)) (b z : list Q) : Prop :=
  Forall2 Qeq (np.matvec A z) b.

(** Two arrays with equal entries. *)
Definition rows_equiv (A B : list (list Q)) : Prop :=
  Forall2 (Forall2 Qeq) A B.

(** A dense or sparse matrix of shape (n, n). *)
Definition square (a : pyarr) (n : nat) : Prop :=
  match a with
  | Nd (np.Arr2 c rows) | Sp (np.Csc c rows) => c = n ∧ np.wf_rows n n rows
  | Nd (np.Arr1 _) => False
  end.

Definition equiv (a b : pyarr) : Prop :=
  match a, b with
  | Nd (np.Arr1 u), Nd (np.Arr1 v) => Forall2 Qeq u v
  | Nd (np.Arr2 c A), Nd (np.Arr2 d B) => c = d ∧ rows_equiv A B
  | Sp (np.Csc c A), Sp (np.Csc d B) => c = d ∧ rows_equiv A B
  | _, _ => False
  end.

(** The arrays (P2, q2, G2, h2, A2, b2) state the augmented problem of
    (P, q, G, h), with n variables and m inequality rows, in the variables
    [x; s]: the cost matrix is block diagonal with blocks P and reg I, the
    cost vector is [q; -sw 1], and at every point [x; s] the cost is that of
    x plus [1/2 reg |s|^2 - sw 1.s], the inequality [G2 z <= h2] says
    [s <= 0] and the equality [A2 z = b2] says [G x - s = h]; so that x
    satisfies [G x <= h] exactly when some [x; s] satisfies both. *)
Definition augments (n m : nat) (P : list (list Q)) (q : list Q)
    (G : list (list Q)) (h : list Q) (sw reg : Q)
    (P2 : list (list Q)) (q2 : list Q) (G2 : list (list Q)) (h2 : list Q)
    (A2 : list (list Q)) (b2 : list Q) : Prop :=
  (∀ i j, (i < n + m)%nat → (j < n + m)%nat →
     np.entry P2 i j ==
     if Nat.ltb i n && Nat.ltb j n then np.entry P i j
     else if Nat.eqb i j then reg else 0)
  ∧ Forall2 Qeq q2 (q ++ replicate m (- sw))
  ∧ b2 = h
  ∧ (∀ x s, length x = n → length s = m →
      cost P2 q2 (x ++ s) == cost P q x + (1 # 2) * reg * np.dot s s - sw * np.vsum s
      ∧ (ineq G2 h2 (x ++ s) ↔ Forall (λ si, si <= 0) s)
      ∧ (eq A2 b2 (x ++ s) ↔ Forall2 Qeq (zip_with Qminus (np.matvec G x) s) h))
  ∧ (length h = m → ∀ x, length x = n →
       ineq G h x ↔ ∃ s, length s = m ∧ ineq G2 h2 (x ++ s) ∧ eq A2 b2 (x ++ s)).

End qp.

(** ** Example data *)

Module ex.

(** A heap with P (2x2, not symmetric), q, G (2x2), h, a flat row [a] and
    bounds. *)
Definition P : obj := Obj 0 [].
Definition q : obj := Obj 1 [].
Definition G : obj := Obj 2 [].
Definition h : obj := Obj 3 [].
Definition a : obj := Obj 4 [].
Definition lb : obj := Obj 5 [].
Definition x : obj := Obj 6 [].


(** A problem without variables and with two inequality rows: P0 (0x0), q0
    (empty, also used as lower bound), G0 (2x0). *)
Definition P0 : obj := Obj 7 [].
Definition q0 : obj := Obj 8 [].
Definition G0 : obj := Obj 9 [].

(** A vector with a single entry. *)
Definition one : obj := Obj 10 [].

Local Open Scope Q_scope.

Definition σ : heap :=
  [ Nd (np.Arr2 2 [[2; 1]; [0; 2]]);
    Nd (np.Arr1 [1; -1]);
    Nd (np.Arr2 2 [[1; 0]; [0; 1]]);
    Nd (np.Arr1 [1; 1]);
    Nd (np.Arr1 [1; 1]);
    Nd (np.Arr1 [0; 0]);
    Nd (np.Arr1 [3; 4; 5; 6]);
    Nd (np.Arr2 0 []);
    Nd (np.Arr1 []);
    Nd (np.Arr2 0 [[]; []]);
    Nd (np.Arr1 [1]) ].

(** Adapters: one that answers with a given vector, one that raises, and one
    that overwrites the cost matrix it is given. *)
Definition answers (r : option obj) : adapter :=
  λ _ _ _ _ _ _ _, mret r.

Definition raises (e : exn) : adapter :=
  λ _ _ _ _ _ _ _, raise e.

Definition overwrites : adapter :=
  λ P _ _ _ _ _ _ σ, (<[base P := Nd (np.Arr1 [])]> σ, Ok None).

Definition solve_function : gmap string adapter :=
  {[ "quadprog" := answers (Some x); "osqp" := raises KeyError ]}.

Definition dense_solvers : list string := ["quadprog"].

(** A piqp package whose solvers report success, the arrays [q] and [h] as
    primal and equality dual, and [z] as inequality dual. *)
Definition piqp_with (z : obj) : piqp_api :=
  {| solver_t := unit; info_t := unit;
     SparseSolver := tt; DenseSolver := tt;
     PIQP_SOLVED := 1%Z;
     setup := λ s _ _ _ _ _ _ _ _ _ _, mret s;
     solve := λ s, mret (1%Z, s);
     result_info := λ _, tt;
     result_x := λ _, q;
     result_y := λ _, h;
     result_z := λ _, z |}.

Definition piqp : piqp_api := piqp_with x.

(** A piqp package with two kinds of solver, whose sparse solver cannot be
    set up and whose dense solver reports success and the array [x] as
    primal solution. *)
Definition piqp_dense_only : piqp_api :=
  {| solver_t := bool; info_t := unit;
     SparseSolver := true; DenseSolver := false;
     PIQP_SOLVED := 1%Z;
     setup := λ s _ _ _ _ _ _ _ _ _ _,
       if s then raise (BackendError "sparse") else mret s;
     solve := λ s, mret (1%Z, s);
     result_info := λ _, tt;
     result_x := λ _, x;
     result_y := λ _, h;
     result_z := λ _, h |}.

(** The heap and the objects of the augmented problem built from the
    example with sw = 1 and reg = 1/100. *)
Definition aug : heap * result (obj * obj * obj * obj * obj * obj) :=
  Eval vm_compute in augmented_problem P q G h 1 (1 # 100) σ.

Definition ensure_sparse_matrices (P : obj) (G A : option obj) :
    M (obj * option obj * option obj) :=
  mret (P, G, A).

(** A constructor of problems that takes its arguments as they are and
    requires a cost vector that is flat: for a cost vector of another shape
    it raises ProblemError. *)
Definition Problem_init (P q : obj) (G h A b lb ub : option obj) : M Problem.t :=
  qv ← get q;
  if is_flat qv
  then mret (Problem.Build P q G h A b lb ub)
  else raise ProblemError.

End ex.

(** ** Shapes and entries *)

(** The rows of a matrix; a flat array counts as one row. *)
Definition rows_of (a : pyarr) : list (list Q) :=
  match a with
  | Nd (np.Arr2 _ rows) | Sp (np.Csc _ rows) => rows
  | Nd (np.Arr1 v) => [v]
  end.

(** [a.shape[1]] of a matrix. *)
Definition shape1 (a : pyarr) : nat :=
  match a with
  | Nd (np.Arr2 c _) | Sp (np.Csc c _) => c
  | Nd (np.Arr1 _) => 0
  end.

(** The entries of an n-by-n table are symmetric. *)
Definition symmetric_entries (n : nat) (rows : list (list Q)) : Prop :=
  ∀ i j, i < n → j < n → (np.entry rows i j == np.entry rows j i)%Q.

(** The shapes on which [P + P.transpose()] fails: a dense matrix whose two
    dimensions differ and are both other than 1, a sparse matrix that is not
    square. *)
Definition transpose_mismatch (a : pyarr) : Prop :=
  match a with
  | Nd (np.Arr1 _) => False
  | Nd (np.Arr2 c rows) => length rows ≠ c ∧ length rows ≠ 1 ∧ c ≠ 1
  | Sp (np.Csc c rows) => length rows ≠ c
  end.

(** ** More example data *)

Module ex2.

(** A 2-by-3 matrix, a 1-by-3 row matrix, and a sparse 2-by-2 matrix. *)
Definition wide : obj := Obj 0 [].
Definition row : obj := Obj 1 [].
Definition sparse : obj := Obj 2 [].
Definition q : obj := Obj 3 [].

Local Open Scope Q_scope.

Definition σ : heap :=
  [ Nd (np.Arr2 3 [[1; 2; 3]; [4; 5; 6]]);
    Nd (np.Arr2 3 [[1; 2; 3]]);
    Sp (np.Csc 2 [[1; 0]; [0; 1]]);
    Nd (np.Arr1 [1; -1]) ].

End ex2.


(** The shapes on which lines 211-215 go through: a square two-dimensional
    P, a one-dimensional q and a two-dimensional G. *)
Definition augmentable (p qa g : np.ndarray) : bool :=
  match p, qa, g with
  | np.Arr2 c rows, np.Arr1 _, np.Arr2 _ _ => Nat.eqb c (length rows)
  | _, _, _ => false
  end.

(** ** qpsolvers/solvers/highs_.py *)

(** The adapter of HiGHS builds a model of the highspy package field by
    field, hands it to a solver object and reads the solution back.  Its
    parameters are taken at their annotated types: a matrix is an ndarray or
    a sparse matrix, a vector is the list of its entries.  The model, the
    solver and the returned array are the adapter's own, so that its code is
    a function of the values it is given.

    A double of HiGHS is a number or an infinity; [highspy.kHighsInf] is the
    positive infinity. *)
Inductive double :=
| NegInf
| Fin (x : Q)
| PosInf.

Definition kHighsInf : double := PosInf.

Definition double_opp (d : double) : double :=
  match d with
  | NegInf => PosInf
  | Fin x => Fin (- x)
  | PosInf => NegInf
  end.

Definition double_le (a b : double) : Prop :=
  match a, b with
  | NegInf, _ | _, PosInf => True
  | Fin x, Fin y => (x <= y)%Q
  | _, _ => False
  end.

(** [l <= v <= u], entry by entry. *)
Definition within (l u : list double) (v : list Q) : Prop :=
  Forall2 (λ li vi, double_le li (Fin vi)) l v
  ∧ Forall2 (λ vi ui, double_le (Fin vi) ui) v u.

(** The classes of highspy, with the fields that the adapter sets. *)
Module HighsHessian.
Record t := Build {
  dim_ : nat;
  start_ : list nat;
  index_ : list nat;
  value_ : list Q }.
End HighsHessian.

Inductive MatrixFormat := kColwise | kRowwise | kRowwisePartitioned.

Module HighsSparseMatrix.
Record t := Build {
  format_ : MatrixFormat;
  start_ : list nat;
  index_ : list nat;
  value_ : list Q;
  num_row_ : nat;
  num_col_ : nat }.
End HighsSparseMatrix.

Module HighsLp.
Record t := Build {
  num_col_ : nat;
  num_row_ : nat;
  col_cost_ : list Q;
  col_lower_ : list double;
  col_upper_ : list double;
  row_lower_ : list double;
  row_upper_ : list double;
  a_matrix_ : HighsSparseMatrix.t }.
End HighsLp.

Module HighsModel.
Record t := Build {
  lp_ : HighsLp.t;
  hessian_ : HighsHessian.t }.
End HighsModel.

(** The rest of highspy: a new model, solver objects with their options,
    [passModel], [run], the column values of [getSolution] and the status
    of [getModelStatus].  The methods that update the solver may raise. *)
Module highspy.
Record api := {
  solver_t : Type;
  HighsModel_new : HighsModel.t;
  Highs : solver_t;
  kVerbose : pyval;
  kOptimal : Z;
  setOptionValue : solver_t → string → pyval → result solver_t;
  passModel : solver_t → HighsModel.t → result solver_t;
  run : solver_t → result solver_t;
  col_value : solver_t → list Q;
  getModelStatus : solver_t → Z }.
End highspy.

(** What the adapter reports besides its result: the calls of
    [warn_about_sparse_conversion], whose code is not given, and the
    warning about warm starts. *)
Inductive event :=
| SparseConversion (name : string)
| WarmStartUnavailable.

(** [spa.csc_matrix(a)]: a one-dimensional array becomes a matrix with one
    row. *)
Definition csc_matrix (a : np.ndarray) : np.csc_matrix :=
  match a with
  | np.Arr1 v => np.Csc (length v) [v]
  | np.Arr2 c rows => np.Csc c rows
  end.

Definition csc_shape0 (s : np.csc_matrix) : nat :=
  match s with np.Csc _ rows => length rows end.

Definition csc_shape1 (s : np.csc_matrix) : nat :=
  match s with np.Csc c _ => c end.

Definition csc_rows (s : np.csc_matrix) : list (list Q) :=
  match s with np.Csc _ rows => rows end.

(** [spa.vstack(blocks, format="csc")]: the blocks must agree on their
    number of columns. *)
Fixpoint csc_vstack (blocks : list np.csc_matrix) : result np.csc_matrix :=
  match blocks with
  | [] => Raise ValueError
  | [s] => Ok s
  | s :: rest =>
      t ← csc_vstack rest;
      if Nat.eqb (csc_shape1 s) (csc_shape1 t)
      then Ok (np.Csc (csc_shape1 s) (csc_rows s ++ csc_rows t))
      else Raise ValueError
  end.

(** [np.hstack(vectors)] assigned to a field of doubles: a [None] in the
    list gives an array of objects, which is not accepted. *)
Fixpoint hstack_doubles (vectors : list (option (list double))) : result (list double) :=
  match vectors with
  | [] => Ok []
  | None :: _ => Raise TypeError
  | Some v :: rest => w ← hstack_doubles rest; Ok (v ++ w)
  end.

(** [isinstance(M, np.ndarray)] followed by [M = spa.csc_matrix(M)] *)
Definition to_csc (a : pyarr) : np.csc_matrix :=
  match a with
  | Nd a => csc_matrix a
  | Sp s => s
  end.

Definition conversion (name : string) (a : option pyarr) : list event :=
  match a with
  | Some (Nd _) => [SparseConversion name]
  | _ => []
  end.

Section highs.

Variable highs : highspy.api.

(** The arrays in which scipy stores a sparse matrix. *)
Variable indptr indices : np.csc_matrix → list nat.
Variable data : np.csc_matrix → list Q.

Definition __set_hessian (model : HighsModel.t) (P : np.csc_matrix) : HighsModel.t :=
  HighsModel.Build (HighsModel.lp_ model)
    (HighsHessian.Build (csc_shape0 P) (indptr P) (indices P) (data P)).

Definition __set_columns (model : HighsModel.t) (q : list Q)
    (lb ub : option (list Q)) : HighsModel.t :=
  let n := length q in
  let lp := HighsModel.lp_ model in
  HighsModel.Build
    (HighsLp.Build n (HighsLp.num_row_ lp) q
       (match lb with
        | Some lb => map Fin lb
        | None => replicate n (double_opp kHighsInf)
        end)
       (match ub with
        | Some ub => map Fin ub
        | None => replicate n kHighsInf
        end)
       (HighsLp.row_lower_ lp) (HighsLp.row_upper_ lp) (HighsLp.a_matrix_ lp))
    (HighsModel.hessian_ model).

(** Lines 114-127 of [__set_rows]: the number of rows and the three lists
    after the two tests. *)
Definition row_lists (G : option np.csc_matrix) (h : option (list Q))
    (A : option np.csc_matrix) (b : option (list Q)) :
    nat * list np.csc_matrix * list (option (list double))
    * list (option (list double)) :=
  let num_row := 0 in
  let row_list := [] in
  let row_lower := [] in
  let row_upper := [] in
  let '(num_row, row_list, row_lower, row_upper) :=
    match G with
    | Some G =>
        (num_row + csc_shape0 G, row_list ++ [G],
         row_lower ++ [Some (replicate (csc_shape0 G) (double_opp kHighsInf))],
         row_upper ++ [map Fin <$> h])
    | None => (num_row, row_list, row_lower, row_upper)
    end in
  match A with
  | Some A =>
      (num_row + csc_shape0 A, row_list ++ [A],
       row_lower ++ [map Fin <$> b],
       row_upper ++ [map Fin <$> b])
  | None => (num_row, row_list, row_lower, row_upper)
  end.

(** An exception leaves a model that nothing refers to, so the model is
    returned only when the function returns. *)
Definition __set_rows (model : HighsModel.t) (G : option np.csc_matrix)
    (h : option (list Q)) (A : option np.csc_matrix) (b : option (list Q)) :
    result HighsModel.t :=
  let lp := HighsModel.lp_ model in
  let '(num_row, row_list, row_lower, row_upper) := row_lists G h A b in
  let with_rows lower upper a_matrix :=
    HighsModel.Build
      (HighsLp.Build (HighsLp.num_col_ lp) num_row (HighsLp.col_cost_ lp)
         (HighsLp.col_lower_ lp) (HighsLp.col_upper_ lp) lower upper a_matrix)
      (HighsModel.hessian_ model) in
  match row_list with
  | [] =>
      Ok (with_rows (HighsLp.row_lower_ lp) (HighsLp.row_upper_ lp)
            (HighsLp.a_matrix_ lp))
  | _ =>
      row_matrix ← csc_vstack row_list;
      let a_matrix :=
        HighsSparseMatrix.Build kColwise (indptr row_matrix) (indices row_matrix)
          (data row_matrix) (csc_shape0 row_matrix) (csc_shape1 row_matrix) in
      lower ← hstack_doubles row_lower;
      upper ← hstack_doubles row_upper;
      Ok (with_rows lower upper a_matrix)
  end.

(** Lines 235-238: the model that is passed to the solver. *)
Definition highs_model (P : np.csc_matrix) (q : list Q)
    (G : option np.csc_matrix) (h : option (list Q))
    (A : option np.csc_matrix) (b lb ub : option (list Q)) : result HighsModel.t :=
  let model := highspy.HighsModel_new highs in
  let model := __set_hessian model P in
  let model := __set_columns model q lb ub in
  __set_rows model G h A b.

(** [for option, value in kwargs.items(): solver.setOptionValue(option, value)],
    in the order of the dictionary. *)
Fixpoint set_options (solver : highspy.solver_t highs)
    (kwargs : list (string * pyval)) : result (highspy.solver_t highs) :=
  match kwargs with
  | [] => Ok solver
  | (option, value) :: kwargs =>
      solver ← highspy.setOptionValue highs solver option value;
      set_options solver kwargs
  end.

Definition highs_solve_qp (P : pyarr) (q : list Q) (G : option pyarr)
    (h : option (list Q)) (A : option pyarr) (b lb ub initvals : option (list Q))
    (verbose : bool) (kwargs : list (string * pyval)) :
    list event * result (option (list Q)) :=
  let events :=
    conversion "P" (Some P) ++ conversion "G" G ++ conversion "A" A
    ++ (if initvals is Some _ then [WarmStartUnavailable] else []) in
  let P := to_csc P in
  let G := to_csc <$> G in
  let A := to_csc <$> A in
  (events,
   model ← highs_model P q G h A b lb ub;
   let solver := highspy.Highs highs in
   solver ←
     (if verbose then
        solver ← highspy.setOptionValue highs solver "log_to_console" (VBool true);
        solver ← highspy.setOptionValue highs solver "log_dev_level"
                   (highspy.kVerbose highs);
        highspy.setOptionValue highs solver "highs_debug_level" (highspy.kVerbose highs)
      else highspy.setOptionValue highs solver "log_to_console" (VBool false));
   solver ← set_options solver kwargs;
   solver ← highspy.passModel highs solver model;
   solver ← highspy.run highs solver;
   let solution := highspy.col_value highs solver in
   let model_status := highspy.getModelStatus highs solver in
   if negb (Z.eqb model_status (highspy.kOptimal highs))
   then Ok None
   else Ok (Some solution)).

End highs.

(** A problem as the model of HiGHS states it, for sparse matrices seen
    through their rows. *)
Definition rows_of_csc (G : option np.csc_matrix) : list (list Q) :=
  match G with Some G => csc_rows G | None => [] end.

Definition entries_of (h : option (list Q)) : list Q :=
  match h with Some h => h | None => [] end.

(** A matrix with n columns given together with a vector that has one entry
    for each of its rows, or neither of them. *)
Definition paired (n : nat) (G : option np.csc_matrix) (h : option (list Q)) : Prop :=
  match G, h with
  | Some G, Some h => csc_shape1 G = n ∧ csc_shape0 G = length h
  | None, None => True
  | _, _ => False
  end.

(** ** Example data for HiGHS *)

Module exh.

Local Open Scope Q_scope.

(** A highspy whose solver keeps the options and the model it was given,
    and reports a given status and the cost vector as solution. *)
Record solver := Solver {
  options : list (string * pyval);
  model : option HighsModel.t }.

Definition empty_matrix : HighsSparseMatrix.t :=
  HighsSparseMatrix.Build kColwise [0%nat] [] [] 0 0.

Definition new_model : HighsModel.t :=
  HighsModel.Build (HighsLp.Build 0 0 [] [] [] [] [] empty_matrix)
    (HighsHessian.Build 0 [] [] []).

Definition api_with (status : Z) : highspy.api :=
  {| highspy.solver_t := solver;
     highspy.HighsModel_new := new_model;
     highspy.Highs := Solver [] None;
     highspy.kVerbose := VNum 3;
     highspy.kOptimal := 7%Z;
     highspy.setOptionValue := λ s option value,
       Ok (Solver (options s ++ [(option, value)]) (model s));
     highspy.passModel := λ s m, Ok (Solver (options s) (Some m));
     highspy.run := λ s, Ok s;
     highspy.col_value := λ s,
       match model s with
       | Some m => HighsLp.col_cost_ (HighsModel.lp_ m)
       | None => []
       end;
     highspy.getModelStatus := λ _, status |}.

Definition api : highspy.api := api_with 7.

(** A storage with every entry written out, column by column. *)
Definition indptr (s : np.csc_matrix) : list nat :=
  map (λ j, j * csc_shape0 s)%nat (seq 0 (S (csc_shape1 s))).

Definition indices (s : np.csc_matrix) : list nat :=
  concat (replicate (csc_shape1 s) (seq 0 (csc_shape0 s))).

Definition data (s : np.csc_matrix) : list Q :=
  concat (map (λ j, map (λ row, nth j row 0) (csc_rows s)) (seq 0 (csc_shape1 s))).

Definition P : pyarr := Nd (np.Arr2 2 [[2; 0]; [0; 2]]).
Definition q : list Q := [1; -1].
Definition G : pyarr := Nd (np.Arr2 2 [[1; 1]]).
Definition h : list Q := [4].
Definition A : pyarr := Sp (np.Csc 2 [[1; -1]]).
Definition b : list Q := [0].

End exh.

(** ** Reading the steps of normalization *)

(** What shape coercion makes of an argument: a flat array becomes its
    1-by-n view, which reads the same buffer; any other argument is passed
    on as it is. *)
Definition promoted (σ : heap) (A A1 : option obj) : Prop :=
  match A with
  | None => A1 = None
  | Some o =>
      match load σ o with
      | Nd (np.Arr1 v) =>
          A1 = Some (as_row o) ∧ base (as_row o) = base o
          ∧ load σ (as_row o) = Nd (np.Arr2 (length v) [v])
      | _ => A1 = Some o
      end
  end.

(** A matrix and its vector are given together and agree on the number of
    rows. *)
Definition rows_agree (σ : heap) (mat vec : option obj) : bool :=
  match mat, vec with
  | None, None => true
  | Some mat, Some vec => Nat.eqb (shape0 (load σ mat)) (shape0 (load σ vec))
  | _, _ => false
  end.

(** The rows [sign * I] and the entries [sign * bound] that a bound on n
    variables adds to the inequalities. *)
Definition bound_rows (sign : Q) (n : nat) (bound : option obj) : list (list Q) :=
  match bound with
  | Some _ =>
      map (map (Qmult sign)) (np.tab n n (λ i j, if Nat.eqb i j then 1 else 0)%Q)
  | None => []
  end.

Definition bound_entries (σ : heap) (sign : Q) (bound : option obj) : list Q :=
  match bound with
  | Some o =>
      match load σ o with
      | Nd (np.Arr1 v) => map (Qmult sign) v
      | _ => []
      end
  | None => []
  end.

(** A dense matrix with n columns (no matrix counts as no rows), a flat
    vector of the heap (no vector counts as no entries), and a flat bound on
    n variables of the heap. *)
Definition dense_rows (σ : heap) (n : nat) (G : option obj) (rows : list (list Q)) : Prop :=
  match G with
  | Some g => load σ g = Nd (np.Arr2 n rows)
  | None => rows = []
  end.

Definition flat_entries (σ : heap) (h : option obj) (v : list Q) : Prop :=
  match h with
  | Some o => base o < length σ ∧ load σ o = Nd (np.Arr1 v)
  | None => v = []
  end.

Definition flat_bound (σ : heap) (n : nat) (bound : option obj) : Prop :=
  match bound with
  | Some o => base o < length σ ∧ ∃ v, load σ o = Nd (np.Arr1 v) ∧ length v = n
  | None => True
  end.

(** * Properties *)

(** ** Running Python code *)

Lemma run_bind {A B} (m : M A) (k : A → M B) (σ : heap) :
  (m ≫= k) σ =
  match m σ with
  | (σ', Ok a) => k a σ'
  | (σ', Raise e) => (σ', Raise e)
  end.
Proof. reflexivity. Qed.

Lemma run_ret {A} (a : A) (σ : heap) : (mret a : M A) σ = (σ, Ok a).
Proof. reflexivity. Qed.

Lemma run_lift {A} (r : result A) (σ : heap) : lift r σ = (σ, r).
Proof. reflexivity. Qed.

Lemma run_get (o : obj) (σ : heap) : get o σ = (σ, Ok (load σ o)).
Proof. reflexivity. Qed.

Lemma run_new (a : pyarr) (σ : heap) : new a σ = (σ ++ [a], Ok (Obj (length σ) [])).
Proof. reflexivity. Qed.

(** ** PIQP: backend selection *)

(** C8: for every piqp package, [__select_backend] raises ParamError exactly
    for the backend names other than None, "dense" and "sparse"; "dense"
    returns the dense solver of the package and "sparse" the sparse one,
    whatever the matrices are; None returns the sparse solver when
    [use_csc] holds and the dense one otherwise.  In [piqp_solve_problem],
    [use_csc] holds exactly when P is a sparse matrix or G or A is given as
    one, and the solver returned is the one that is set up, on the matrices
    as given or as converted, and whose result the solution is read from. *)
Theorem select_backend_cases (piqp : piqp_api)
    (ensure_sparse_matrices : obj → option obj → option obj →
                              M (obj * option obj * option obj))
    (backend : option string) (use_csc : bool) :
  (__select_backend piqp backend use_csc = Raise ParamError
   ↔ backend ≠ None ∧ backend ≠ Some "dense"%string ∧ backend ≠ Some "sparse"%string)
  ∧ __select_backend piqp None use_csc
    = Ok (if use_csc then SparseSolver piqp else DenseSolver piqp)
  ∧ __select_backend piqp (Some "dense"%string) use_csc = Ok (DenseSolver piqp)
  ∧ __select_backend piqp (Some "sparse"%string) use_csc = Ok (SparseSolver piqp)
  ∧ ∀ (P q : obj) (G h A b lb ub : option obj) (verbose : bool)
      (kwargs : gmap string pyval) (σ σ1 σ2 : heap) (P' : obj) (G' A' : option obj)
      (solver : solver_t piqp),
      let is_csc a := match a with Sp _ => true | Nd _ => false end in
      let given_csc mat :=
        match mat with Some o => is_csc (load σ o) | None => false end in
      let sparse := is_csc (load σ P) || given_csc G || given_csc A in
      let run :=
        piqp_solve_problem piqp ensure_sparse_matrices
          (Problem.Build P q G h A b lb ub) verbose backend kwargs σ in
      (if sparse
       then ensure_sparse_matrices P G A σ = (σ1, Ok (P', G', A'))
       else (σ1, P', G', A') = (σ, P, G, A)) →
      (backend = None
       ∧ solver = (if sparse then SparseSolver piqp else DenseSolver piqp)
       ∨ backend = Some "dense"%string ∧ solver = DenseSolver piqp
       ∨ backend = Some "sparse"%string ∧ solver = SparseSolver piqp) →
      (∀ e, setup piqp solver P' q A' b G' h lb ub verbose kwargs σ1 = (σ2, Raise e) →
            run = (σ2, Raise e))
      ∧ (∀ s σ3 status s',
           setup piqp solver P' q A' b G' h lb ub verbose kwargs σ1 = (σ2, Ok s) →
           solve piqp s σ2 = (σ3, Ok (status, s')) →
           ∃ sol, run = (σ3, Ok sol)
                  ∧ Solution.x sol = Some (result_x piqp s')
                  ∧ Solution.found sol = Z.eqb status (PIQP_SOLVED piqp)).
Proof.
  split.
  { unfold __select_backend. destruct backend as [s|].
    - destruct (String.eqb_spec s "dense") as [->|Hd].
      { split; [done|]. by intros (_ & Hne & _). }
      destruct (String.eqb_spec s "sparse") as [->|Hs].
      { split; [done|]. by intros (_ & _ & Hne). }
      split; [|done]. intros _. repeat split; congruence.
    - split; [by destruct use_csc|]. by intros (Hne & _). }
  do 3 (split; [done|]).
  intros P q G h A b lb ub verbose kwargs σ σ1 σ2 P' G' A' solver
    is_csc given_csc sparse run Hconv Hsolver.
  assert (negb (is_ndarray (load σ P)) || given_not_ndarray σ G
          || given_not_ndarray σ A = sparse) as Hsparse.
  { unfold sparse, given_csc, is_csc, given_not_ndarray.
    destruct (load σ P), G as [og|], A as [oa|]; simpl;
      try destruct (load σ og); try destruct (load σ oa); done. }
  assert (__select_backend piqp backend sparse = Ok solver) as Hsel.
  { by destruct Hsolver as [[-> ->]|[[-> ->]|[-> ->]]]. }
  assert (run = (s ← setup piqp solver P' q A' b G' h lb ub verbose kwargs;
                 r ← solve piqp s;
                 mret (Solution.Build (Problem.Build P q G h A b lb ub)
                         (Some (result_info piqp r.2))
                         (Z.eqb r.1 (PIQP_SOLVED piqp))
                         (Some (result_x piqp r.2)) (Some (result_y piqp r.2))
                         (if is_given lb || is_given ub
                          then Some (slice_obj (result_z piqp r.2) None
                                       (Some (- Z.of_nat (shape0 (load σ q)))%Z))
                          else Some (result_z piqp r.2))
                         (if is_given lb || is_given ub
                          then Some (slice_obj (result_z piqp r.2)
                                       (Some (- Z.of_nat (shape0 (load σ q)))%Z) None)
                          else None))) σ1) as Hrun.
  { unfold run, piqp_solve_problem. simpl.
    rewrite run_bind, run_get, run_bind. simpl. rewrite Hsparse, run_bind.
    destruct sparse.
    - rewrite Hconv, run_bind, run_lift, Hsel. rewrite !run_bind.
      destruct (setup _ _ _ _ _ _ _ _ _ _ _ _ _) as [σa [s|e]]; [|done].
      rewrite !run_bind. by destruct (solve _ _ _) as [σb [[status s']|e]].
    - injection Hconv as -> -> -> ->. rewrite run_ret, run_bind, run_lift, Hsel.
      rewrite !run_bind.
      destruct (setup _ _ _ _ _ _ _ _ _ _ _ _ _) as [σa [s|e]]; [|done].
      rewrite !run_bind. by destruct (solve _ _ _) as [σb [[status s']|e]]. }
  split.
  - intros e Hsetup. by rewrite Hrun, run_bind, Hsetup.
  - intros s σ3 status s' Hsetup Hsolve. eexists.
    rewrite Hrun, run_bind, Hsetup, run_bind, Hsolve, run_ret. done.
Qed.

(** On the dense example, with no backend named, the solver that is set up
    is the dense one: with a package whose sparse solver cannot be set up
    the run returns the solution of the dense solver. *)
Lemma select_backend_cases_witness :
  ∃ sol,
    piqp_solve_problem ex.piqp_dense_only ex.ensure_sparse_matrices
      (Problem.Build ex.P ex.q (Some ex.G) (Some ex.h) None None None None)
      false None ∅ ex.σ = (ex.σ, Ok sol)
    ∧ Solution.x sol = Some ex.x
    ∧ Solution.found sol = true.
Proof.
  destruct (select_backend_cases ex.piqp_dense_only ex.ensure_sparse_matrices None false)
    as (_ & _ & _ & _ & Hrun).
  destruct (Hrun ex.P ex.q (Some ex.G) (Some ex.h) None None None None false ∅
              ex.σ ex.σ ex.σ ex.P (Some ex.G) None false) as [_ Hreturns].
  - reflexivity.
  - left. split; reflexivity.
  - exact (Hreturns false ex.σ 1%Z false eq_refl eq_refl).
Defined.

(** ** Python slices *)

Lemma slice_bound_nonneg (len n : nat) : slice_bound len (Z.of_nat n) = min n len.
Proof. unfold slice_bound. destruct (Z.ltb_spec (Z.of_nat n) 0); lia. Qed.

Lemma slice_bound_neg (len n : nat) :
  0 < n → slice_bound len (- Z.of_nat n) = len - n.
Proof. intros Hn. unfold slice_bound. destruct (Z.ltb_spec (- Z.of_nat n) 0); lia. Qed.

(** [l[:n]] is the first n items. *)
Lemma py_slice_prefix {A} (n : nat) (l : list A) :
  py_slice None (Some (Z.of_nat n)) l = take n l.
Proof.
  unfold py_slice. simpl. rewrite slice_bound_nonneg, Nat.sub_0_r.
  destruct (decide (n ≤ length l)).
  - by rewrite Nat.min_l.
  - rewrite Nat.min_r by lia. rewrite !take_ge; auto; lia.
Qed.

(** For a positive n, [l[:-n]] drops the last n items and [l[-n:]] keeps them. *)
Lemma py_slice_drop_last {A} (n : nat) (l : list A) :
  0 < n → py_slice None (Some (- Z.of_nat n)%Z) l = take (length l - n) l.
Proof.
  intros Hn. unfold py_slice. simpl.
  by rewrite slice_bound_neg, Nat.sub_0_r.
Qed.

Lemma py_slice_last {A} (n : nat) (l : list A) :
  0 < n → py_slice (Some (- Z.of_nat n)%Z) None l = drop (length l - n) l.
Proof.
  intros Hn. unfold py_slice. simpl. rewrite slice_bound_neg by done.
  apply take_ge. rewrite length_drop. lia.
Qed.

(** With n = 0 the index [-n] is 0: [l[:-0]] is empty and [l[-0:]] is all of
    [l]. *)
Lemma py_slice_drop_last_0 {A} (l : list A) : py_slice None (Some (- Z.of_nat 0)%Z) l = [].
Proof.
  unfold py_slice. simpl.
  replace (slice_bound (length l) (- Z.of_nat 0)) with 0
    by (unfold slice_bound; simpl; lia).
  done.
Qed.

Lemma py_slice_last_0 {A} (l : list A) : py_slice (Some (- Z.of_nat 0)%Z) None l = l.
Proof.
  unfold py_slice. simpl.
  replace (slice_bound (length l) (- Z.of_nat 0)) with 0
    by (unfold slice_bound; simpl; lia).
  rewrite Nat.sub_0_r. by rewrite take_ge.
Qed.

Lemma load_slice_obj (σ : heap) (o : obj) (i j : option Z) :
  load σ (slice_obj o i j) = apply_view (load σ o) (Slice i j).
Proof. unfold load, slice_obj. simpl. by rewrite foldl_app. Qed.

(** ** The heap is only extended *)

Lemma load_prefix (σ σ' : heap) (o : obj) :
  σ `prefix_of` σ' → base o < length σ → load σ' o = load σ o.
Proof.
  intros [k ->] Hlt. unfold load. by rewrite lookup_app_l.
Qed.

Lemma keeps_heap_ret {A} (a : A) : keeps_heap (mret a : M A).
Proof. by intros σ. Qed.

Lemma keeps_heap_raise {A} (e : exn) : keeps_heap (raise e : M A).
Proof. by intros σ. Qed.

Lemma keeps_heap_lift {A} (r : result A) : keeps_heap (lift r).
Proof. by intros σ. Qed.

Lemma keeps_heap_gets {A} (f : heap → A) : keeps_heap (gets f).
Proof. by intros σ. Qed.

Lemma keeps_heap_get (o : obj) : keeps_heap (get o).
Proof. by intros σ. Qed.

Lemma keeps_heap_new (a : pyarr) : keeps_heap (new a).
Proof. intros σ. simpl. by apply prefix_app_r. Qed.

Lemma keeps_heap_bind {A B} (m : M A) (k : A → M B) :
  keeps_heap m → (∀ a, keeps_heap (k a)) → keeps_heap (m ≫= k).
Proof.
  intros Hm Hk σ. rewrite run_bind. specialize (Hm σ).
  destruct (m σ) as [σ' [a|e]]; simpl in *; [|done].
  etrans; [exact Hm|apply Hk].
Qed.

Lemma keeps_heap_try {A} (m : M A) (h : exn → M A) :
  keeps_heap m → (∀ e, keeps_heap (h e)) → keeps_heap (try_except m h).
Proof.
  intros Hm Hh σ. unfold try_except. specialize (Hm σ).
  destruct (m σ) as [σ' [a|e]]; simpl in *; [done|].
  etrans; [exact Hm|apply Hh].
Qed.

Create HintDb keeps discriminated.
#[export] Hint Resolve keeps_heap_ret keeps_heap_raise keeps_heap_lift keeps_heap_gets
  keeps_heap_get keeps_heap_new : keeps.

(** ** PIQP: the entry point [piqp_solve_qp] *)

Section piqp_properties.

Variable piqp : piqp_api.
Variable Problem_init :
  obj → obj → option obj → option obj → option obj → option obj →
  option obj → option obj → M Problem.t.
Variable ensure_sparse_matrices :
  obj → option obj → option obj → M (obj * option obj * option obj).

(** Four positional arguments do not bind to the three positional
    parameters of [piqp_solve_problem]. *)
Lemma piqp_solve_problem_call_rejected (problem initvals verbose backend : pyval)
    (kwargs : gmap string pyval) :
  py_bind piqp_solve_problem_params 1 [problem; initvals; verbose; backend] kwargs
  = Raise TypeError.
Proof. reflexivity. Qed.

(** C3, as amended: for every constructor of problems and every piqp
    package, when the [Problem] is constructed [piqp_solve_qp] raises
    TypeError in the heap that the constructor leaves, before anything of
    the package is called; when the constructor raises, that exception is
    the outcome.  So the call never returns a vector and [initvals] never
    reaches a solver. *)
Theorem piqp_solve_qp_raises (P q : obj) (G h A b lb ub initvals : option obj)
    (verbose : bool) (backend : option string) (kwargs : gmap string pyval)
    (σ : heap) :
  let run := piqp_solve_qp piqp Problem_init ensure_sparse_matrices P q G h A b lb ub
               initvals verbose backend kwargs σ in
  match Problem_init P q G h A b lb ub σ with
  | (σ1, Ok problem) => run = (σ1, Raise TypeError)
  | (σ1, Raise e) => run = (σ1, Raise e)
  end
  ∧ ∃ σ1 e, run = (σ1, Raise e).
Proof.
  unfold piqp_solve_qp. rewrite run_bind.
  destruct (Problem_init P q G h A b lb ub σ) as [σ1 [problem|e]] eqn:Hinit.
  - rewrite !run_bind, run_lift, piqp_solve_problem_call_rejected.
    split; [done|by do 2 eexists].
  - split; [done|by do 2 eexists].
Qed.

End piqp_properties.

(** With a flat cost vector the example constructor returns, and the call
    raises TypeError. *)
Lemma piqp_solve_qp_raises_witness :
  piqp_solve_qp ex.piqp ex.Problem_init ex.ensure_sparse_matrices ex.P ex.q
    (Some ex.G) (Some ex.h) None None None None (Some ex.x) false None ∅ ex.σ
  = (ex.σ, Raise TypeError).
Proof.
  exact (proj1 (piqp_solve_qp_raises ex.piqp ex.Problem_init ex.ensure_sparse_matrices
                  ex.P ex.q (Some ex.G) (Some ex.h) None None None None (Some ex.x)
                  false None ∅ ex.σ)).
Defined.

(** C3 as stated fails when the constructor of [Problem] raises: with the
    2-by-2 matrix G in the place of the cost vector, the example constructor
    raises ProblemError before the call, so the exception is not a
    TypeError. *)
Lemma piqp_solve_qp_ProblemError :
  piqp_solve_qp ex.piqp ex.Problem_init ex.ensure_sparse_matrices ex.P ex.G
    None None None None None None None false None ∅ ex.σ
  = (ex.σ, Raise ProblemError)
  ∧ Raise (A:=option obj) ProblemError ≠ Raise TypeError.
Proof. split; [reflexivity|discriminate]. Qed.

(** ** PIQP: the solution returned by [piqp_solve_problem] *)

Section piqp_solution.

Variable piqp : piqp_api.
Variable ensure_sparse_matrices :
  obj → option obj → option obj → M (obj * option obj * option obj).

(** The solution of a run that returns: every field comes from the solver
    object [s] left by [solve]. *)
Lemma piqp_solve_problem_returns (problem : Problem.t) (verbose : bool)
    (backend : option string) (kwargs : gmap string pyval) (σ σ' : heap)
    (sol : Solution.t (info_t piqp)) :
  piqp_solve_problem piqp ensure_sparse_matrices problem verbose backend kwargs σ
  = (σ', Ok sol) →
  ∃ (s : solver_t piqp) (status : Z),
    let n := shape0 (load σ (Problem.q problem)) in
    let bounded := is_given (Problem.lb problem) || is_given (Problem.ub problem) in
    sol = Solution.Build problem (Some (result_info piqp s))
            (Z.eqb status (PIQP_SOLVED piqp))
            (Some (result_x piqp s)) (Some (result_y piqp s))
            (if bounded
             then Some (slice_obj (result_z piqp s) None (Some (- Z.of_nat n)%Z))
             else Some (result_z piqp s))
            (if bounded
             then Some (slice_obj (result_z piqp s) (Some (- Z.of_nat n)%Z) None)
             else None).
Proof.
  destruct problem as [P q G h A b lb ub].
  unfold piqp_solve_problem. simpl.
  rewrite run_bind, run_get, run_bind. simpl.
  rewrite run_bind.
  match goal with
  | |- context [(if ?c then ?m1 else ?m2) σ] =>
      destruct ((if c then m1 else m2) σ) as [σ1 [[[P' G'] A']|e]]; [|done]
  end.
  rewrite run_bind, run_lift.
  destruct (__select_backend _ _) as [kind|e]; [|done].
  rewrite run_bind.
  destruct (setup _ _ _ _ _ _ _ _ _ _ _ _ _) as [σ2 [s|e]]; [|done].
  rewrite run_bind.
  destruct (solve _ _ _) as [σ3 [[status s']|e]]; [|done].
  rewrite run_ret. intros [= _ <-]. by exists s', status.
Qed.

(** An unknown backend name ends [piqp_solve_problem] with ParamError
    before any solver is set up; with no name the choice follows
    [use_csc], which holds when P is not an ndarray, or G or A is given and
    is not one. *)
Lemma piqp_solve_problem_ParamError (problem : Problem.t) (verbose : bool)
    (s : string) (kwargs : gmap string pyval) (σ σ1 : heap)
    (PGA : obj * option obj * option obj) :
  s ≠ "dense"%string → s ≠ "sparse"%string →
  (let use_csc := negb (is_ndarray (load σ (Problem.P problem)))
                  || given_not_ndarray σ (Problem.G problem)
                  || given_not_ndarray σ (Problem.A problem) in
   if use_csc
   then ensure_sparse_matrices (Problem.P problem) (Problem.G problem)
          (Problem.A problem) σ = (σ1, Ok PGA)
   else σ1 = σ) →
  piqp_solve_problem piqp ensure_sparse_matrices problem verbose (Some s) kwargs σ
  = (σ1, Raise ParamError).
Proof.
  intros Hd Hs. destruct problem as [P q G h A b lb ub]. simpl.
  unfold piqp_solve_problem. simpl.
  rewrite run_bind, run_get, run_bind. simpl. rewrite run_bind.
  destruct (negb _ || _ || _); intros Hens.
  - rewrite Hens. destruct PGA as [[P' G'] A']. rewrite run_bind, run_lift.
    unfold __select_backend.
    destruct (String.eqb_spec s "dense"); [done|].
    by destruct (String.eqb_spec s "sparse").
  - subst σ1. rewrite run_ret, run_bind, run_lift. unfold __select_backend.
    destruct (String.eqb_spec s "dense"); [done|].
    by destruct (String.eqb_spec s "sparse").
Qed.

(** With at least one variable, the bounded case splits the dual vector
    into all but its last n entries and its last n entries. *)
Lemma piqp_solve_problem_duals (problem : Problem.t) (verbose : bool)
    (backend : option string) (kwargs : gmap string pyval) (σ σ' : heap)
    (sol : Solution.t (info_t piqp)) :
  piqp_solve_problem piqp ensure_sparse_matrices problem verbose backend kwargs σ
  = (σ', Ok sol) →
  let n := shape0 (load σ (Problem.q problem)) in
  ∃ s : solver_t piqp,
    Solution.x sol = Some (result_x piqp s)
    ∧ Solution.y sol = Some (result_y piqp s)
    ∧ (Problem.lb problem = None → Problem.ub problem = None →
       Solution.z sol = Some (result_z piqp s) ∧ Solution.z_box sol = None)
    ∧ (is_given (Problem.lb problem) || is_given (Problem.ub problem) = true →
       0 < n →
       ∀ zv, load σ' (result_z piqp s) = Nd (np.Arr1 zv) →
       ∃ z z_box,
         Solution.z sol = Some z ∧ Solution.z_box sol = Some z_box
         ∧ load σ' z = Nd (np.Arr1 (take (length zv - n) zv))
         ∧ load σ' z_box = Nd (np.Arr1 (drop (length zv - n) zv))).
Proof.
  intros Hrun n. apply piqp_solve_problem_returns in Hrun as (s & status & ->).
  exists s. simpl. split; [done|]. split; [done|]. split.
  - by intros -> ->.
  - intros Hb Hn zv Hz. rewrite Hb. do 2 eexists.
    split; [done|]. split; [done|].
    rewrite !load_slice_obj, Hz. simpl.
    by rewrite py_slice_drop_last, py_slice_last.
Qed.

End piqp_solution.

(** The slices at a problem without variables (n = 0), with two inequality
    rows and a lower bound, for a package whose solver returns the dual
    vector [1; 1]: [z[:-0]] is empty and [z[-0:]] is the whole vector. *)
Example piqp_solve_problem_no_variables :
  ∃ sol,
    piqp_solve_problem (ex.piqp_with ex.h) ex.ensure_sparse_matrices
      (Problem.Build ex.P0 ex.q0 (Some ex.G0) (Some ex.h) None None (Some ex.q0) None)
      false None ∅ ex.σ = (ex.σ, Ok sol)
    ∧ shape0 (load ex.σ ex.q0) = 0
    ∧ load ex.σ <$> Solution.z sol = Some (Nd (np.Arr1 []))
    ∧ load ex.σ <$> Solution.z_box sol = Some (Nd (np.Arr1 [1; 1]%Q)).
Proof. eexists. split; [vm_compute; reflexivity|]. by vm_compute. Qed.

(** ** Tables and entries *)

Section tables.

Local Open Scope Q_scope.

Lemma length_tab (r c : nat) (f : nat → nat → Q) : length (np.tab r c f) = r.
Proof. unfold np.tab. by rewrite length_map, length_seq. Qed.

Lemma wf_rows_tab (r c : nat) (f : nat → nat → Q) : np.wf_rows r c (np.tab r c f).
Proof.
  split; [apply length_tab|]. unfold np.tab.
  apply Forall_forall. intros row Hrow%list_elem_of_In.
  apply in_map_iff in Hrow as [i [<- _]].
  by rewrite length_map, length_seq.
Qed.

Lemma nth_map_seq {A} (f : nat → A) (n i : nat) (d : A) :
  (i < n)%nat → nth i (map f (seq 0 n)) d = f i.
Proof.
  intros Hi. rewrite (nth_indep _ d (f 0%nat)) by (by rewrite length_map, length_seq).
  by rewrite map_nth, seq_nth.
Qed.

Lemma entry_tab (r c : nat) (f : nat → nat → Q) (i j : nat) :
  (i < r)%nat → (j < c)%nat → np.entry (np.tab r c f) i j = f i j.
Proof.
  intros Hi Hj. unfold np.entry, np.tab.
  by rewrite (nth_map_seq _ r i []), nth_map_seq.
Qed.

Lemma tab_ext (r c : nat) (f g : nat → nat → Q) :
  (∀ i j, (i < r)%nat → (j < c)%nat → f i j = g i j) → np.tab r c f = np.tab r c g.
Proof.
  intros Hfg. unfold np.tab. apply map_ext_in. intros i Hi%in_seq.
  apply map_ext_in. intros j Hj%in_seq. apply Hfg; lia.
Qed.

Lemma map_map_tab (k : Q → Q) (r c : nat) (f : nat → nat → Q) :
  map (map k) (np.tab r c f) = np.tab r c (λ i j, k (f i j)).
Proof.
  unfold np.tab. rewrite map_map. apply map_ext. intros i. by rewrite map_map.
Qed.

Lemma Forall2_map_in {A B} (R : B → B → Prop) (f g : A → B) (l : list A) :
  (∀ x, In x l → R (f x) (g x)) → Forall2 R (map f l) (map g l).
Proof.
  induction l as [|x l IH]; intros Hfg; simpl; constructor.
  - apply Hfg. by left.
  - apply IH. intros y Hy. apply Hfg. by right.
Qed.

Lemma Forall2_map_seq {A} (R : A → A → Prop) (f g : nat → A) (n : nat) :
  (∀ i, (i < n)%nat → R (f i) (g i)) →
  Forall2 R (map f (seq 0 n)) (map g (seq 0 n)).
Proof.
  intros Hfg. apply Forall2_map_in. intros i Hi%in_seq. apply Hfg. lia.
Qed.

Lemma rows_equiv_tab (r c : nat) (f g : nat → nat → Q) :
  (∀ i j, (i < r)%nat → (j < c)%nat → f i j == g i j) →
  qp.rows_equiv (np.tab r c f) (np.tab r c g).
Proof.
  intros Hfg. apply Forall2_map_seq. intros i Hi.
  apply Forall2_map_seq. intros j Hj. by apply Hfg.
Qed.

Lemma bidx_lt (d i : nat) : (i < d)%nat → np.bidx d i = i.
Proof. unfold np.bidx. destruct (Nat.eqb_spec d 1); lia. Qed.

Lemma bdim_same (d : nat) : np.bdim d d = Ok d.
Proof. unfold np.bdim. by rewrite Nat.eqb_refl. Qed.

End tables.

(** Unfolding of the operations on Python code. *)
Ltac munfold :=
  unfold mbind, M_bind, bind, mret, M_ret, ret, get, gets, new, lift, raise,
    try_except in *.

(** ** [solve_safer_qp]: the dense-solver requirement and the result *)

Section safer_qp_result.

Variable check_problem_constraints :
  option obj → option obj → option obj → option obj → M unit.
Variable concatenate_bounds :
  option obj → option obj → option obj → option obj → M (option obj * option obj).
Variable solve_function : gmap string adapter.
Variable dense_solvers : list string.

Local Abbreviation safer_qp :=
  (solve_safer_qp check_problem_constraints concatenate_bounds solve_function
     dense_solvers).
Local Abbreviation qp :=
  (solve_qp check_problem_constraints concatenate_bounds solve_function).

(** C6: for a solver that is not among the dense solvers the assertion
    fails first: AssertionError is raised and the heap is as it was, so
    that no augmented array has been built and nothing dispatched. *)
Theorem solve_safer_qp_dense_only (P q G h : obj) (sw reg : Q) (solver : string)
    (initvals : option obj) (sym_proj : bool) (σ : heap) :
  solver ∉ dense_solvers →
  safer_qp P q G h sw reg solver initvals sym_proj σ
  = (σ, Raise AssertionError).
Proof.
  intros Hs. unfold solve_safer_qp.
  rewrite run_bind. by rewrite bool_decide_false.
Qed.

(** What [solve_safer_qp] does once the assertion holds. *)
Lemma solve_safer_qp_run (P q G h : obj) (sw reg : Q) (solver : string)
    (initvals : option obj) (sym_proj : bool) (σ : heap) :
  solver ∈ dense_solvers →
  safer_qp P q G h sw reg solver initvals sym_proj σ =
  match augmented_problem P q G h sw reg σ with
  | (σ1, Ok (P2, q2, G2, h2, A2, b2)) =>
      match qp P2 q2 (Some G2) (Some h2) (Some A2) (Some b2) None None
              solver initvals sym_proj false ∅ σ1 with
      | (σ2, Ok x) =>
          (σ2, Ok ((λ x, slice_obj x None (Some (Z.of_nat (shape0 (load σ P))))) <$> x))
      | (σ2, Raise e) => (σ2, Raise e)
      end
  | (σ1, Raise e) => (σ1, Raise e)
  end.
Proof.
  intros Hs. unfold solve_safer_qp.
  rewrite run_bind, bool_decide_true by done. simpl.
  rewrite run_bind, run_get, run_bind.
  destruct (augmented_problem _ _ _ _ _ _ _) as [σ1 [[[[[[P2 q2] G2] h2] A2] b2]|e]];
    [|done].
  rewrite run_bind.
  destruct (solve_qp _ _ _ _ _ _ _ _ _ _ _ _ _ _ _ _ _) as [σ2 [[x|]|e]]; done.
Qed.

(** The augmented arrays exist only for a two-dimensional P with as many
    columns as rows. *)
Lemma augmented_arrays_square (Pv qv Gv : pyarr) (sw reg : Q)
    (arrays : np.ndarray * np.ndarray * np.ndarray * np.ndarray * np.ndarray) :
  augmented_arrays Pv qv Gv sw reg = Ok arrays →
  ∃ rows, Pv = Nd (np.Arr2 (shape0 Pv) rows).
Proof.
  unfold augmented_arrays.
  destruct Pv as [[v|c rows]|s]; simpl; [done| |done].
  rewrite !length_map, !length_tab, !length_replicate, !Nat.eqb_refl. simpl.
  unfold np.vstack. simpl.
  destruct (Nat.eqb_spec (c + shape0 Gv) (length rows + shape0 Gv)) as [Hc|?]; [|done].
  intros _. exists rows. do 2 f_equal. lia.
Qed.

(** The run of [augmented_problem]: the arrays are computed from what P, q
    and G hold, and placed in five new cells. *)
Lemma augmented_problem_run (P q G h : obj) (sw reg : Q) (σ : heap) :
  augmented_problem P q G h sw reg σ =
  match augmented_arrays (load σ P) (load σ q) (load σ G) sw reg with
  | Ok (P2, q2, G2, h2, A2) =>
      (σ ++ [Nd P2; Nd q2; Nd G2; Nd h2; Nd A2],
       Ok (Obj (length σ) [], Obj (length σ + 1) [], Obj (length σ + 2) [],
           Obj (length σ + 3) [], Obj (length σ + 4) [], h))
  | Raise e => (σ, Raise e)
  end.
Proof.
  unfold augmented_problem. munfold.
  destruct (augmented_arrays _ _ _ _ _) as [[[[[P2 q2] G2] h2] A2]|e]; [|done].
  munfold. rewrite !length_app. simpl. rewrite <- !app_assoc. simpl.
  by rewrite <- !Nat.add_assoc.
Qed.

(** C5: when the solve dispatched on the augmented problem returns a
    vector x, [solve_safer_qp] returns [x[:n]], which holds the first n
    entries of x, where n counts the rows and the columns of P; when it
    returns None, so does [solve_safer_qp]. *)
Theorem solve_safer_qp_result (P q G h : obj) (sw reg : Q) (solver : string)
    (initvals : option obj) (sym_proj : bool) (σ σ1 σ2 : heap)
    (P2 q2 G2 h2 A2 b2 : obj) (r : option obj) :
  solver ∈ dense_solvers →
  augmented_problem P q G h sw reg σ = (σ1, Ok (P2, q2, G2, h2, A2, b2)) →
  qp P2 q2 (Some G2) (Some h2) (Some A2) (Some b2) None None
    solver initvals sym_proj false ∅ σ1 = (σ2, Ok r) →
  let n := shape0 (load σ P) in
  (∃ rows, load σ P = Nd (np.Arr2 n rows))
  ∧ match r with
    | None => safer_qp P q G h sw reg solver initvals sym_proj σ = (σ2, Ok None)
    | Some x =>
        ∃ xn, safer_qp P q G h sw reg solver initvals sym_proj σ = (σ2, Ok (Some xn))
              ∧ ∀ v, load σ2 x = Nd (np.Arr1 v) → load σ2 xn = Nd (np.Arr1 (take n v))
    end.
Proof.
  intros Hs Haug Hsolve n. split.
  - rewrite augmented_problem_run in Haug.
    destruct (augmented_arrays _ _ _ _ _) as [arrays|e] eqn:Harr; [|done].
    by apply augmented_arrays_square in Harr.
  - pose proof (solve_safer_qp_run P q G h sw reg solver initvals sym_proj σ Hs) as Hrun.
    rewrite Haug, Hsolve in Hrun. destruct r as [x|]; [|done].
    eexists. split; [exact Hrun|].
    intros v Hv. rewrite load_slice_obj, Hv. simpl. by rewrite py_slice_prefix.
Qed.

End safer_qp_result.

(** "osqp" is not a dense solver of the example: the assertion fails. *)
Lemma solve_safer_qp_dense_only_witness :
  solve_safer_qp check_problem_constraints concatenate_bounds ex.solve_function
    ex.dense_solvers ex.P ex.q ex.G ex.h 1 (1 # 100) "osqp" None false ex.σ
  = (ex.σ, Raise AssertionError).
Proof.
  apply (solve_safer_qp_dense_only check_problem_constraints concatenate_bounds
           ex.solve_function ex.dense_solvers).
  refine (bool_decide_unpack ("osqp"%string ∉ ex.dense_solvers) _). by vm_compute.
Defined.

(** With the example adapter, which answers [3; 4; 5; 6] for the augmented
    problem of the 2x2 example, the result holds [3; 4]. *)
Lemma solve_safer_qp_result_witness :
  (∃ rows, load ex.σ ex.P = Nd (np.Arr2 2 rows))
  ∧ ∃ xn, solve_safer_qp check_problem_constraints concatenate_bounds ex.solve_function
            ex.dense_solvers ex.P ex.q ex.G ex.h 1 (1 # 100) "quadprog" None false ex.σ
          = (ex.aug.1, Ok (Some xn))
          ∧ ∀ v, load ex.aug.1 ex.x = Nd (np.Arr1 v) →
                 load ex.aug.1 xn = Nd (np.Arr1 (take 2 v)).
Proof.
  refine (solve_safer_qp_result check_problem_constraints concatenate_bounds
            ex.solve_function ex.dense_solvers ex.P ex.q ex.G ex.h 1 (1 # 100)
            "quadprog" None false ex.σ ex.aug.1
            ex.aug.1 (Obj 11 []) (Obj 12 []) (Obj 13 []) (Obj 14 []) (Obj 15 []) ex.h
            (Some ex.x) _ _ _).
  - refine (bool_decide_unpack ("quadprog"%string ∈ ex.dense_solvers) _). by vm_compute.
  - by vm_compute.
  - by vm_compute.
Defined.

(** ** [solve_qp]: normalization, then dispatch *)

(** The steps of normalization that are in [solve_qp] itself. *)
Lemma sym_proj_step_run (sym_proj : bool) (P : obj) (σ : heap) :
  sym_proj_step sym_proj P σ =
  if sym_proj then
    match half_sum_transpose (load σ P) with
    | Ok s => (σ ++ [s], Ok (Obj (length σ) []))
    | Raise e => (σ, Raise e)
    end
  else (σ, Ok P).
Proof.
  unfold sym_proj_step. destruct sym_proj; [|done]. munfold.
  by destruct (half_sum_transpose _).
Qed.

Lemma load_new (σ : heap) (a : pyarr) : load (σ ++ [a]) (Obj (length σ) []) = a.
Proof. unfold load. simpl. by rewrite list_lookup_middle. Qed.

Lemma reshape_step_run (A : option obj) (σ : heap) :
  reshape_step A σ = (σ, Ok (reshaped σ A)).
Proof.
  destruct A as [o|]; [|done]. unfold reshape_step, reshaped. munfold.
  by destruct (is_flat _).
Qed.

(** A flat array of n entries becomes a 1-by-n array on the same buffer. *)
Lemma reshaped_flat (σ : heap) (o : obj) (v : list Q) :
  load σ o = Nd (np.Arr1 v) →
  reshaped σ (Some o) = Some (as_row o)
  ∧ base (as_row o) = base o
  ∧ load σ (as_row o) = Nd (np.Arr2 (length v) [v]).
Proof.
  intros Hv. unfold reshaped. rewrite Hv. simpl. split; [done|]. split; [done|].
  unfold load, as_row in *. simpl. rewrite foldl_app, Hv. done.
Qed.

Lemma reshaped_other (σ : heap) (o : obj) :
  is_flat (load σ o) = false → reshaped σ (Some o) = Some o.
Proof. intros Hv. unfold reshaped. by rewrite Hv. Qed.

Section solve_qp_properties.

Variable check_problem_constraints :
  option obj → option obj → option obj → option obj → M unit.
Variable concatenate_bounds :
  option obj → option obj → option obj → option obj → M (option obj * option obj).

Local Abbreviation normal := (normalize check_problem_constraints concatenate_bounds).
Local Abbreviation solve := (solve_qp check_problem_constraints concatenate_bounds).

(** The run of [solve_qp] after normalization: the lookup, the call, and
    the handler of KeyError. *)
Lemma solve_qp_run (solve_function : gmap string adapter) (P q : obj)
    (G h A b lb ub : option obj) (solver : string) (initvals : option obj)
    (sym_proj verbose : bool) (kwargs : gmap string pyval) (σ : heap) :
  solve solve_function P q G h A b lb ub solver initvals sym_proj verbose kwargs σ =
  match normal P G h A b lb ub initvals sym_proj verbose kwargs σ with
  | (σ1, Ok (P', G', h', A', kwargs')) =>
      match solve_function !! solver with
      | None => (σ1, Raise (SolverNotFound solver))
      | Some f =>
          match f P' q G' h' A' b kwargs' σ1 with
          | (σ2, Raise KeyError) => (σ2, Raise (SolverNotFound solver))
          | out => out
          end
      end
  | (σ1, Raise e) => (σ1, Raise e)
  end.
Proof.
  unfold solve_qp. rewrite run_bind.
  destruct (normalize _ _ _ _ _ _ _ _ _ _ _ _ _) as [σ1 [[[[[P' G'] h'] A'] kwargs']|e]];
    [|done].
  unfold try_except, dispatch.
  destruct (solve_function !! solver) as [f|]; [|done].
  by destruct (f _ _ _ _ _ _ _ _) as [σ2 [r|[]]].
Qed.

(** C2, as amended: an exception of normalization is the outcome whatever
    the solver; after a normalization that succeeds, a solver that is not
    in the registry gives SolverNotFound, and what a registered adapter
    returns or raises, KeyError apart, is the outcome unchanged. *)
Theorem solve_qp_outcome (solve_function : gmap string adapter) (P q : obj)
    (G h A b lb ub : option obj) (solver : string) (initvals : option obj)
    (sym_proj verbose : bool) (kwargs : gmap string pyval) (σ σ1 : heap)
    (r : result (obj * option obj * option obj * option obj * gmap string pyval)) :
  normal P G h A b lb ub initvals sym_proj verbose kwargs σ = (σ1, r) →
  match r with
  | Raise e =>
      solve solve_function P q G h A b lb ub solver initvals sym_proj verbose
        kwargs σ = (σ1, Raise e)
  | Ok (P', G', h', A', kwargs') =>
      (solve_function !! solver = None →
       solve solve_function P q G h A b lb ub solver initvals sym_proj verbose
         kwargs σ = (σ1, Raise (SolverNotFound solver)))
      ∧ (∀ f σ2 out,
           solve_function !! solver = Some f →
           f P' q G' h' A' b kwargs' σ1 = (σ2, out) →
           out ≠ Raise KeyError →
           solve solve_function P q G h A b lb ub solver initvals sym_proj verbose
             kwargs σ = (σ2, out))
  end.
Proof.
  intros Hnorm. rewrite solve_qp_run, Hnorm.
  destruct r as [[[[[P' G'] h'] A'] kwargs']|e]; [|done]. split.
  - unfold M in *. by intros ->.
  - unfold M in *. intros f σ2 out -> -> Hout. by destruct out as [x|[]].
Qed.

End solve_qp_properties.

(** In the example, an unknown solver gives SolverNotFound and the answer of
    a registered adapter is returned as it is. *)
Lemma solve_qp_outcome_witness :
  solve_qp check_problem_constraints concatenate_bounds ex.solve_function ex.P ex.q
    (Some ex.G) (Some ex.h) None None None None "nonexistent" None false false ∅ ex.σ
  = (ex.σ, Raise (SolverNotFound "nonexistent"))
  ∧ solve_qp check_problem_constraints concatenate_bounds ex.solve_function ex.P ex.q
      (Some ex.G) (Some ex.h) None None None None "quadprog" None false false ∅ ex.σ
    = (ex.σ, Ok (Some ex.x)).
Proof.
  split.
  - refine (proj1 (solve_qp_outcome check_problem_constraints concatenate_bounds
                     ex.solve_function ex.P ex.q (Some ex.G) (Some ex.h) None None None None
                     "nonexistent" None false false ∅ ex.σ ex.σ
                     (Ok (ex.P, Some ex.G, Some ex.h, None,
                          <["verbose" := VBool false]> (<["initvals" := VNone]> ∅))) _) _).
    + by vm_compute.
    + by vm_compute.
  - refine (proj2 (solve_qp_outcome check_problem_constraints concatenate_bounds
                     ex.solve_function ex.P ex.q (Some ex.G) (Some ex.h) None None None None
                     "quadprog" None false false ∅ ex.σ ex.σ
                     (Ok (ex.P, Some ex.G, Some ex.h, None,
                          <["verbose" := VBool false]> (<["initvals" := VNone]> ∅))) _)
                  (ex.answers (Some ex.x)) ex.σ (Ok (Some ex.x)) _ _ _).
    + by vm_compute.
    + by vm_compute.
    + by vm_compute.
    + discriminate.
Defined.

(** C2 as stated fails for an unknown solver and a problem with G but
    without h: validation comes before the lookup and raises ValueError. *)
Lemma solve_qp_unknown_solver_ValueError :
  ex.solve_function !! "nonexistent"%string = None
  ∧ solve_qp check_problem_constraints concatenate_bounds ex.solve_function ex.P ex.q
      (Some ex.G) None None None None None "nonexistent" None false false ∅ ex.σ
    = (ex.σ, Raise ValueError).
Proof. split; by vm_compute. Qed.

(** The handler of KeyError also catches a KeyError raised inside a
    registered adapter: "osqp" is in the registry of the example, and the
    call reports it as not found. *)
Lemma solve_qp_adapter_KeyError :
  is_Some (ex.solve_function !! "osqp"%string)
  ∧ solve_qp check_problem_constraints concatenate_bounds ex.solve_function ex.P ex.q
      (Some ex.G) (Some ex.h) None None None None "osqp" None false false ∅ ex.σ
    = (ex.σ, Raise (SolverNotFound "osqp")).
Proof. split; [by eexists|by vm_compute]. Qed.

(** ** [solve_qp] does not write into the arrays it is given *)

Lemma sym_proj_step_keeps (sym_proj : bool) (P : obj) : keeps_heap (sym_proj_step sym_proj P).
Proof.
  unfold sym_proj_step. destruct sym_proj; [|apply keeps_heap_ret].
  do 2 (apply keeps_heap_bind; [auto with keeps|intros ?]). auto with keeps.
Qed.

Lemma reshape_step_keeps (A : option obj) : keeps_heap (reshape_step A).
Proof. intros σ. by rewrite reshape_step_run. Qed.

(** The helpers modelled from the spec only read, or build new arrays. *)
Lemma check_pair_keeps (mat vec : option obj) : keeps_heap (check_pair mat vec).
Proof.
  unfold check_pair. destruct mat, vec; auto with keeps.
  do 2 (apply keeps_heap_bind; [auto with keeps|intros ?]).
  destruct (_ =? _); auto with keeps.
Qed.

Lemma check_problem_constraints_keeps (G h A b : option obj) :
  keeps_heap (check_problem_constraints G h A b).
Proof.
  unfold check_problem_constraints.
  apply keeps_heap_bind; [apply check_pair_keeps|intros _; apply check_pair_keeps].
Qed.

Lemma append_bound_keeps (G h : option obj) (sign : Q) (bound : obj) :
  keeps_heap (append_bound G h sign bound).
Proof.
  unfold append_bound.
  do 2 (apply keeps_heap_bind; [auto with keeps|intros ?]).
  apply keeps_heap_bind.
  { destruct G; auto with keeps.
    do 3 (apply keeps_heap_bind; [auto with keeps|intros ?]). auto with keeps. }
  intros ?. apply keeps_heap_bind; [|auto with keeps].
  destruct h; auto with keeps.
  do 3 (apply keeps_heap_bind; [auto with keeps|intros ?]). auto with keeps.
Qed.

Lemma concatenate_bounds_keeps (G h lb ub : option obj) :
  keeps_heap (concatenate_bounds G h lb ub).
Proof.
  unfold concatenate_bounds. apply keeps_heap_bind.
  - destruct lb; [apply append_bound_keeps|apply keeps_heap_ret].
  - intros Gh. destruct ub; [apply append_bound_keeps|apply keeps_heap_ret].
Qed.

Section solve_qp_frame.

Variable check_problem_constraints :
  option obj → option obj → option obj → option obj → M unit.
Variable concatenate_bounds :
  option obj → option obj → option obj → option obj → M (option obj * option obj).

Hypothesis check_keeps :
  ∀ G h A b, keeps_heap (check_problem_constraints G h A b).
Hypothesis concatenate_keeps :
  ∀ G h lb ub, keeps_heap (concatenate_bounds G h lb ub).

(** Up to the lookup of the solver the heap is only extended:
    symmetrization allocates, reshaping takes a view. *)
Lemma normalize_keeps (P : obj) (G h A b lb ub initvals : option obj)
    (sym_proj verbose : bool) (kwargs : gmap string pyval) :
  keeps_heap (normalize check_problem_constraints concatenate_bounds P G h A b lb ub
                initvals sym_proj verbose kwargs).
Proof using check_keeps concatenate_keeps.
  unfold normalize.
  apply keeps_heap_bind; [apply sym_proj_step_keeps|intros ?].
  apply keeps_heap_bind; [apply reshape_step_keeps|intros ?].
  apply keeps_heap_bind; [apply reshape_step_keeps|intros ?].
  apply keeps_heap_bind; [apply check_keeps|intros ?].
  apply keeps_heap_bind; [apply concatenate_keeps|intros ?].
  apply keeps_heap_ret.
Qed.

End solve_qp_frame.

(** The adapters of the example registry do not write. *)
Lemma ex_adapters_keep (name : string)
    (f : obj → obj → option obj → option obj → option obj → option obj →
         gmap string pyval → M (option obj)) :
  ex.solve_function !! name = Some f →
  ∀ P q G h A b kwargs, keeps_heap (f P q G h A b kwargs).
Proof.
  unfold ex.solve_function. intros Hf P q G h A b kwargs.
  apply lookup_insert_Some in Hf as [[_ <-]|[_ Hf]]; [apply keeps_heap_ret|].
  apply lookup_singleton_Some in Hf as [_ <-]. apply keeps_heap_raise.
Qed.

(** A call that symmetrizes P, reshapes the flat row [a] and folds a lower
    bound returns the adapter's answer. *)
Example solve_qp_example_run :
  (solve_qp check_problem_constraints concatenate_bounds ex.solve_function
     ex.P ex.q (Some ex.G) (Some ex.h) (Some ex.a) (Some ex.one) (Some ex.lb) None
     "quadprog" None true false ∅ ex.σ).2 = Ok (Some ex.x).
Proof. by vm_compute. Qed.

(** C9 as stated fails when the adapter writes: an adapter that overwrites
    the cost matrix it is given changes the caller's P, since [solve_qp]
    hands its own arguments to the adapter, not copies. *)
Lemma solve_qp_adapter_writes :
  load (solve_qp check_problem_constraints concatenate_bounds
          {[ "inplace"%string := ex.overwrites ]}
          ex.P ex.q None None None None None None "inplace" None false false ∅ ex.σ).1 ex.P
  ≠ load ex.σ ex.P.
Proof. by vm_compute. Qed.

(** ** Products of stacked arrays *)

Section products.

Local Open Scope Q_scope.

Lemma vec_equiv_nth (u v : list Q) :
  length u = length v →
  (∀ i, (i < length u)%nat → nth i u 0 == nth i v 0) →
  Forall2 Qeq u v.
Proof.
  revert v. induction u as [|a u IH]; intros [|b v] Hlen Hnth; try done.
  constructor.
  - apply (Hnth 0%nat). simpl. lia.
  - apply IH; [by injection Hlen|].
    intros i Hi. apply (Hnth (S i)). simpl. lia.
Qed.

Lemma vec_equiv_refl (u : list Q) : Forall2 Qeq u u.
Proof. induction u; by constructor. Qed.

Lemma vec_equiv_sym (u v : list Q) : Forall2 Qeq u v → Forall2 Qeq v u.
Proof. induction 1; constructor; [by symmetry|done]. Qed.

Lemma vec_equiv_trans (u v w : list Q) :
  Forall2 Qeq u v → Forall2 Qeq v w → Forall2 Qeq u w.
Proof.
  intros Huv. revert w. induction Huv as [|a b u v Hab Huv IH]; intros w Hvw.
  - done.
  - inversion Hvw as [|? c ? w' Hbc Hvw']; subst.
    constructor; [by rewrite Hab|by apply IH].
Qed.

Lemma dot_equiv_r (x u v : list Q) : Forall2 Qeq u v → np.dot x u == np.dot x v.
Proof.
  intros Huv. revert x. induction Huv as [|a b u v Hab Huv IH]; intros [|c x]; simpl;
    try reflexivity.
  by rewrite Hab, IH.
Qed.

Lemma dot_app (a b x s : list Q) :
  length a = length x →
  np.dot (a ++ b) (x ++ s) == np.dot a x + np.dot b s.
Proof.
  revert x. induction a as [|a0 a IH]; intros [|x0 x] Hlen; try done; simpl.
  - ring.
  - rewrite IH by (by injection Hlen). ring.
Qed.

Lemma dot_zero_row {A} (l : list A) (s : list Q) : np.dot (map (λ _, 0) l) s == 0.
Proof.
  revert s. induction l as [|? l IH]; intros [|x s]; simpl; try reflexivity.
  rewrite IH. ring.
Qed.

Lemma dot_scal_l (c : Q) (a x : list Q) : np.dot (map (Qmult c) a) x == c * np.dot a x.
Proof.
  revert x. induction a as [|a0 a IH]; intros [|x0 x]; simpl; try ring.
  rewrite IH. ring.
Qed.

Lemma dot_scal_r (c : Q) (a x : list Q) : np.dot a (map (Qmult c) x) == c * np.dot a x.
Proof.
  revert x. induction a as [|a0 a IH]; intros [|x0 x]; simpl; try ring.
  rewrite IH. ring.
Qed.

Lemma dot_opp_l (a x : list Q) : np.dot (map Qopp a) x == - np.dot a x.
Proof.
  revert x. induction a as [|a0 a IH]; intros [|x0 x]; simpl; try ring.
  rewrite IH. ring.
Qed.

Lemma dot_ones (s : list Q) : np.dot (replicate (length s) 1) s == np.vsum s.
Proof. induction s as [|x s IH]; simpl; [reflexivity|]. rewrite IH. ring. Qed.

(** The i-th row of the identity picks the i-th entry. *)
Lemma dot_unit_from (i k m : nat) (s : list Q) :
  np.dot (map (λ j, if Nat.eqb i j then 1 else 0) (seq k m)) s
  == if (k <=? i)%nat && (i <? k + m)%nat then nth (i - k) s 0 else 0.
Proof.
  revert k s. induction m as [|m IH]; intros k s; simpl.
  - destruct (Nat.leb_spec k i), (Nat.ltb_spec i (k + 0)); simpl; try reflexivity. lia.
  - destruct s as [|x s].
    { destruct (_ && _); [by destruct (i - k)%nat|reflexivity]. }
    rewrite IH. destruct (Nat.eqb_spec i k) as [->|Hik].
    + rewrite Nat.leb_refl, Nat.sub_diag.
      destruct (Nat.leb_spec (S k) k); [lia|].
      destruct (Nat.ltb_spec k (k + S m)); [|lia]. simpl. ring.
    + destruct (Nat.leb_spec k i), (Nat.ltb_spec i (k + S m)),
        (Nat.leb_spec (S k) i), (Nat.ltb_spec i (S k + m)); simpl; try lia; try ring.
      replace (i - k)%nat with (S (i - S k)) by lia. simpl. ring.
Qed.

Lemma dot_unit (i m : nat) (s : list Q) :
  (i < m)%nat →
  np.dot (map (λ j, if Nat.eqb i j then 1 else 0) (seq 0 m)) s == nth i s 0.
Proof.
  intros Hi. rewrite dot_unit_from. simpl.
  destruct (Nat.ltb_spec i m); [|lia]. by rewrite Nat.sub_0_r.
Qed.

Lemma length_matvec (A : list (list Q)) (z : list Q) :
  length (np.matvec A z) = length A.
Proof. unfold np.matvec. by rewrite length_map. Qed.

Lemma nth_matvec (A : list (list Q)) (z : list Q) (i : nat) :
  nth i (np.matvec A z) 0 = np.dot (nth i A []) z.
Proof. unfold np.matvec. by rewrite <- (map_nth (λ row, np.dot row z)). Qed.

Lemma nth_zip_with_app (A B : list (list Q)) (i : nat) :
  length A = length B →
  nth i (zip_with app A B) [] = nth i A [] ++ nth i B [].
Proof.
  revert B i. induction A as [|a A IH]; intros [|b B] i Hlen; try done.
  - by destruct i.
  - destruct i; [done|]. simpl. apply IH. by injection Hlen.
Qed.

Lemma nth_tab_row (r c : nat) (f : nat → nat → Q) (i : nat) :
  (i < r)%nat → nth i (np.tab r c f) [] = map (f i) (seq 0 c).
Proof. intros Hi. unfold np.tab. by rewrite (nth_map_seq _ r i []). Qed.

Lemma nth_wf_row (r c : nat) (rows : list (list Q)) (i : nat) :
  np.wf_rows r c rows → (i < r)%nat → length (nth i rows []) = c.
Proof.
  intros [<- Hc] Hi. rewrite Forall_forall in Hc.
  apply Hc, list_elem_of_In, nth_In. lia.
Qed.

Lemma entry_zeros2 (m n i j : nat) :
  np.entry (replicate m (replicate n 0)) i j = 0.
Proof.
  unfold np.entry. rewrite (nth_lookup (replicate m _)).
  destruct (decide (i < m)%nat) as [Hi|Hi].
  - rewrite lookup_replicate_2 by done. simpl.
    rewrite nth_lookup. destruct (decide (j < n)%nat).
    + by rewrite lookup_replicate_2.
    + by rewrite lookup_ge_None_2 by (rewrite length_replicate; lia).
  - rewrite lookup_ge_None_2 by (rewrite length_replicate; lia). simpl.
    by destruct j.
Qed.

End products.

(** ** Symmetrization *)

Section symmetrization.

Local Open Scope Q_scope.

Lemma half_sum_transpose_dense (n : nat) (rows : list (list Q)) :
  np.wf_rows n n rows →
  half_sum_transpose (Nd (np.Arr2 n rows))
  = Ok (Nd (np.Arr2 n (np.tab n n (sym_entry rows)))).
Proof.
  intros [Hlen Hrows]. unfold half_sum_transpose, np.add. simpl.
  rewrite length_tab, Hlen, bdim_same. simpl.
  do 3 f_equal. rewrite map_map_tab. apply tab_ext. intros i j Hi Hj.
  by rewrite !bidx_lt, entry_tab.
Qed.

Lemma half_sum_transpose_sparse (n : nat) (rows : list (list Q)) :
  np.wf_rows n n rows →
  half_sum_transpose (Sp (np.Csc n rows))
  = Ok (Sp (np.Csc n (np.tab n n (sym_entry rows)))).
Proof.
  intros [Hlen Hrows]. unfold half_sum_transpose, np.csc_add. simpl.
  rewrite length_tab, Hlen, Nat.eqb_refl. simpl.
  do 3 f_equal. rewrite map_map_tab. apply tab_ext. intros i j Hi Hj.
  by rewrite entry_tab.
Qed.

Lemma sym_entry_twice (n : nat) (rows : list (list Q)) (i j : nat) :
  (i < n)%nat → (j < n)%nat →
  sym_entry (np.tab n n (sym_entry rows)) i j == sym_entry rows i j.
Proof.
  intros Hi Hj. unfold sym_entry at 1. rewrite !entry_tab by done.
  unfold sym_entry. ring.
Qed.

(** C7: for every square matrix P, dense or sparse, symmetrizing the
    symmetrized matrix gives a matrix with the same entries. *)
Theorem sym_proj_idempotent (P : pyarr) (n : nat) :
  qp.square P n →
  ∃ S S',
    half_sum_transpose P = Ok S
    ∧ half_sum_transpose S = Ok S'
    ∧ qp.square S n
    ∧ qp.equiv S' S.
Proof.
  destruct P as [[v|c rows]|[c rows]]; simpl; [done| |]; intros [-> Hwf].
  - do 2 eexists. split; [by apply half_sum_transpose_dense|].
    split; [apply half_sum_transpose_dense, wf_rows_tab|].
    split; [split; [done|apply wf_rows_tab]|].
    split; [done|]. apply rows_equiv_tab. by apply sym_entry_twice.
  - do 2 eexists. split; [by apply half_sum_transpose_sparse|].
    split; [apply half_sum_transpose_sparse, wf_rows_tab|].
    split; [split; [done|apply wf_rows_tab]|].
    split; [done|]. apply rows_equiv_tab. by apply sym_entry_twice.
Qed.

End symmetrization.

(** The cost matrix of the example, [[2, 1], [0, 2]], becomes
    [[2, 1/2], [1/2, 2]] and then stays the same. *)
Lemma sym_proj_idempotent_witness :
  ∃ S S',
    half_sum_transpose (load ex.σ ex.P) = Ok S
    ∧ half_sum_transpose S = Ok S'
    ∧ qp.square S 2
    ∧ qp.equiv S' S.
Proof.
  apply (sym_proj_idempotent (load ex.σ ex.P) 2).
  vm_compute. repeat constructor.
Defined.

(** ** More on products *)

Section more_products.

Local Open Scope Q_scope.

Lemma dot_zeros (k : nat) (u : list Q) : np.dot (replicate k 0) u == 0.
Proof.
  revert u. induction k as [|k IH]; intros [|a u]; simpl; try reflexivity.
  rewrite IH. ring.
Qed.

Lemma nth_map_rows (f : Q → Q) (A : list (list Q)) (i : nat) :
  nth i (map (map f) A) [] = map f (nth i A []).
Proof. by rewrite <- (map_nth (map f)). Qed.

Lemma nth_map_lt (f : Q → Q) (u : list Q) (i : nat) :
  (i < length u)%nat → nth i (map f u) 0 = f (nth i u 0).
Proof.
  intros Hi. rewrite (nth_indep _ 0 (f 0)) by (by rewrite length_map).
  apply map_nth.
Qed.

Lemma nth_zip_with_minus (u v : list Q) (i : nat) :
  (i < length u)%nat → (i < length v)%nat →
  nth i (zip_with Qminus u v) 0 = nth i u 0 - nth i v 0.
Proof.
  revert v i. induction u as [|a u IH]; intros [|b v] i Hu Hv; simpl in *; try lia.
  destruct i; [done|]. apply IH; lia.
Qed.

End more_products.

(** ** The augmented problem of [solve_safer_qp] *)

Section augmented.

Local Open Scope Q_scope.

Variables n m : nat.
Variable Pr : list (list Q).
Variable qv : list Q.
Variable Gr : list (list Q).
Variables sw reg : Q.

Hypothesis P_shape : np.wf_rows n n Pr.
Hypothesis q_length : length qv = n.
Hypothesis G_shape : np.wf_rows m n Gr.

Local Abbreviation Z := (replicate m (replicate n 0)).
Local Abbreviation E := (np.tab m m (λ i j : nat, if Nat.eqb i j then 1 else 0)).

(** The arrays that lines 211-215 compute for well-shaped dense inputs. *)
Lemma augmented_arrays_dense :
  augmented_arrays (Nd (np.Arr2 n Pr)) (Nd (np.Arr1 qv)) (Nd (np.Arr2 n Gr)) sw reg
  = Ok (np.Arr2 (n + m)
          (zip_with app Pr (np.tab n m (λ i j, np.entry Z j i))
           ++ zip_with app Z (map (map (Qmult reg)) E)),
        np.Arr1 (qv ++ map (Qmult (- sw)) (replicate m 1)),
        np.Arr2 (n + m) (zip_with app Z E),
        np.Arr1 (replicate m 0),
        np.Arr2 (n + m) (zip_with app Gr (map (map Qopp) E))).
Proof using P_shape G_shape.
  destruct P_shape as [HP _], G_shape as [HG _].
  unfold augmented_arrays. simpl.
  rewrite !length_map, !length_tab, !length_replicate, HP, HG, !Nat.eqb_refl. simpl.
  unfold np.vstack. simpl. by rewrite Nat.eqb_refl.
Qed.

Variables x s : list Q.
Hypothesis x_length : length x = n.
Hypothesis s_length : length s = m.

Lemma nth_Z (i : nat) : (i < m)%nat → nth i Z [] = replicate n 0.
Proof. intros Hi. by rewrite nth_lookup, lookup_replicate_2. Qed.

Lemma nth_E (i : nat) :
  (i < m)%nat → nth i E [] = map (λ j, if Nat.eqb i j then 1 else 0) (seq 0 m).
Proof. apply nth_tab_row. Qed.

(** A row of two blocks applied to [x; s]. *)
Lemma nth_matvec_hstack (A B : list (list Q)) (i : nat) :
  length A = length B → length (nth i A []) = length x →
  nth i (np.matvec (zip_with app A B) (x ++ s)) 0
  == np.dot (nth i A []) x + np.dot (nth i B []) s.
Proof.
  intros Hlen Hrow. rewrite nth_matvec, nth_zip_with_app by done.
  by apply dot_app.
Qed.

(** [Z x + E s = s] *)
Lemma matvec_G2 : Forall2 Qeq (np.matvec (zip_with app Z E) (x ++ s)) s.
Proof using x_length s_length.
  clear q_length P_shape G_shape. apply vec_equiv_nth.
  { by rewrite length_matvec, length_zip_with_l_eq, length_replicate
      by (by rewrite length_tab, length_replicate). }
  intros i. rewrite length_matvec, length_zip_with_l_eq, length_replicate
    by (by rewrite length_tab, length_replicate).
  intros Hi. rewrite nth_matvec_hstack.
  - rewrite nth_Z, nth_E, dot_zeros, dot_unit by done. ring.
  - by rewrite length_tab, length_replicate.
  - by rewrite nth_Z, length_replicate.
Qed.

(** [G x - E s = G x - s] *)
Lemma matvec_A2 :
  Forall2 Qeq (np.matvec (zip_with app Gr (map (map Qopp) E)) (x ++ s))
    (zip_with Qminus (np.matvec Gr x) s).
Proof using x_length s_length G_shape.
  clear q_length P_shape. pose proof G_shape as [HG _].
  assert (length (zip_with app Gr (map (map Qopp) E)) = m) as Hlen.
  { by rewrite length_zip_with_l_eq by (by rewrite length_map, length_tab). }
  apply vec_equiv_nth.
  { rewrite length_matvec, Hlen, length_zip_with_l_eq;
      by rewrite length_matvec, ?s_length. }
  intros i. rewrite length_matvec, Hlen. intros Hi.
  rewrite nth_matvec_hstack.
  - rewrite nth_map_rows, nth_E, dot_opp_l, dot_unit by done.
    rewrite nth_zip_with_minus, nth_matvec by (rewrite ?length_matvec; lia).
    ring.
  - by rewrite length_map, length_tab.
  - by rewrite (nth_wf_row m n), x_length.
Qed.

(** [[P 0; 0 reg I] [x; s] = [P x; reg s]] *)
Lemma matvec_P2 :
  Forall2 Qeq
    (np.matvec (zip_with app Pr (np.tab n m (λ i j, np.entry Z j i))
                ++ zip_with app Z (map (map (Qmult reg)) E)) (x ++ s))
    (np.matvec Pr x ++ map (Qmult reg) s).
Proof using x_length s_length P_shape.
  clear q_length G_shape. pose proof P_shape as [HP _].
  unfold np.matvec at 1. rewrite map_app. apply Forall2_app.
  - apply vec_equiv_nth.
    { by rewrite length_map, length_zip_with_l_eq, length_matvec by (by rewrite length_tab). }
    intros i. rewrite length_map, length_zip_with_l_eq by (by rewrite length_tab).
    rewrite HP. intros Hi.
    change (map (λ row, np.dot row (x ++ s)) ?A) with (np.matvec A (x ++ s)).
    rewrite nth_matvec_hstack.
    + rewrite nth_tab_row by done.
      rewrite (map_ext _ (λ _, 0)) by (intros j; apply entry_zeros2).
      rewrite dot_zero_row, nth_matvec. ring.
    + by rewrite length_tab.
    + by rewrite (nth_wf_row n n), x_length.
  - apply vec_equiv_nth.
    { by rewrite !length_map, length_zip_with_l_eq, length_replicate
        by (by rewrite length_map, length_tab, length_replicate). }
    intros i. rewrite length_map, length_zip_with_l_eq, length_replicate
      by (by rewrite length_map, length_tab, length_replicate).
    intros Hi.
    change (map (λ row, np.dot row (x ++ s)) ?A) with (np.matvec A (x ++ s)).
    rewrite nth_matvec_hstack.
    + rewrite nth_Z, nth_map_rows, nth_E, dot_zeros, dot_scal_l, dot_unit by done.
      rewrite nth_map_lt by lia. ring.
    + by rewrite length_map, length_tab, length_replicate.
    + by rewrite nth_Z, length_replicate.
Qed.

(** [[q; -sw 1] . [x; s] = q . x - sw (1 . s)] *)
Lemma dot_q2 :
  np.dot (qv ++ map (Qmult (- sw)) (replicate m 1)) (x ++ s)
  == np.dot qv x - sw * np.vsum s.
Proof using x_length s_length q_length.
  clear P_shape G_shape. rewrite dot_app by lia. rewrite dot_scal_l, <- s_length, dot_ones. ring.
Qed.

(** The cost of the augmented problem at [x; s]. *)
Lemma cost_augmented :
  qp.cost (zip_with app Pr (np.tab n m (λ i j, np.entry Z j i))
           ++ zip_with app Z (map (map (Qmult reg)) E))
    (qv ++ map (Qmult (- sw)) (replicate m 1)) (x ++ s)
  == qp.cost Pr qv x + (1 # 2) * reg * np.dot s s - sw * np.vsum s.
Proof using x_length s_length q_length P_shape.
  unfold qp.cost. rewrite (dot_equiv_r _ _ _ matvec_P2), dot_q2.
  rewrite dot_app by (rewrite length_matvec; destruct P_shape; lia).
  rewrite dot_scal_r. ring.
Qed.

End augmented.

Section augmented_entries.

Local Open Scope Q_scope.

Variables n m : nat.
Variable Pr : list (list Q).
Variable reg : Q.
Hypothesis P_shape : np.wf_rows n n Pr.

Local Abbreviation Z := (replicate m (replicate n 0)).
Local Abbreviation E := (np.tab m m (λ i j : nat, if Nat.eqb i j then 1 else 0)).

(** The cost matrix is block diagonal: P, then [reg] on the diagonal. *)
Lemma entry_P2 (i j : nat) :
  (i < n + m)%nat → (j < n + m)%nat →
  np.entry (zip_with app Pr (np.tab n m (λ i j, np.entry Z j i))
            ++ zip_with app Z (map (map (Qmult reg)) E)) i j
  == if Nat.ltb i n && Nat.ltb j n then np.entry Pr i j
     else if Nat.eqb i j then reg else 0.
Proof using P_shape.
  intros Hi Hj. pose proof P_shape as [HP _]. unfold np.entry.
  assert (∀ f, length (zip_with app Pr (np.tab n m f)) = n) as Htop.
  { intros f. by rewrite length_zip_with_l_eq by (by rewrite length_tab). }
  destruct (Nat.ltb_spec i n) as [Hin|Hin]; simpl.
  - rewrite app_nth1 by (rewrite Htop; lia).
    rewrite nth_zip_with_app by (by rewrite length_tab).
    rewrite nth_tab_row by done.
    destruct (Nat.ltb_spec j n) as [Hjn|Hjn].
    + by rewrite app_nth1 by (by rewrite (nth_wf_row n n)).
    + rewrite app_nth2 by (rewrite (nth_wf_row n n); done).
      rewrite (nth_wf_row n n), nth_map_seq by (done || lia).
      change (nth i (nth (j - n) Z []) 0) with (np.entry Z (j - n) i).
      rewrite entry_zeros2.
      destruct (Nat.eqb_spec i j); [lia|reflexivity].
  - rewrite app_nth2 by (rewrite Htop; lia). rewrite Htop.
    rewrite nth_zip_with_app by (by rewrite length_map, length_tab, length_replicate).
    rewrite (nth_Z n m), nth_map_rows, nth_tab_row by lia.
    destruct (Nat.ltb_spec j n) as [Hjn|Hjn].
    + rewrite app_nth1 by (by rewrite length_replicate).
      rewrite (nth_lookup (replicate n 0)), lookup_replicate_2 by done. simpl.
      destruct (Nat.eqb_spec i j); [lia|reflexivity].
    + rewrite app_nth2, length_replicate by (rewrite length_replicate; lia).
      rewrite nth_map_lt by (rewrite length_map, length_seq; lia).
      rewrite nth_map_seq by lia.
      destruct (Nat.eqb_spec (i - n) (j - n)), (Nat.eqb_spec i j); try lia; ring.
Qed.

End augmented_entries.

Section inequalities.

Local Open Scope Q_scope.

(** [u <= 0] row by row, for a vector u with the entries of s. *)
Lemma le_zeros_equiv (u s : list Q) :
  Forall2 Qeq u s →
  Forall2 Qle u (replicate (length s) 0) ↔ Forall (λ si, si <= 0) s.
Proof.
  induction 1 as [|a b u s Hab Hus IH]; simpl.
  - split; constructor.
  - split.
    + intros Hle. inversion Hle; subst. constructor; [by rewrite <- Hab|by apply IH].
    + intros Hle. inversion Hle; subst. constructor; [by rewrite Hab|by apply IH].
Qed.

Lemma eq_equiv_l (u v w : list Q) :
  Forall2 Qeq u v → Forall2 Qeq u w ↔ Forall2 Qeq v w.
Proof.
  intros Huv. split; intros H.
  - eapply vec_equiv_trans; [by apply vec_equiv_sym|done].
  - by eapply vec_equiv_trans.
Qed.

(** [u <= h] holds exactly when [u - s = h] for some [s <= 0]. *)
Lemma le_iff_slack (u h : list Q) :
  length u = length h →
  Forall2 Qle u h ↔
  ∃ s, length s = length u ∧ Forall (λ si, si <= 0) s
       ∧ Forall2 Qeq (zip_with Qminus u s) h.
Proof.
  revert h. induction u as [|a u IH]; intros [|b h] Hlen; try done.
  - split; [|constructor]. intros _. exists []. by repeat split; constructor.
  - simpl in Hlen. injection Hlen as Hlen. specialize (IH h Hlen). split.
    + intros Hle. inversion Hle as [|? ? ? ? Hab Huh]; subst.
      apply IH in Huh as (s & Hs & Hneg & Heq).
      exists ((a - b) :: s). split; [by simpl; rewrite Hs|].
      split; constructor; try done; lra.
    + intros ([|c s] & Hs & Hneg & Heq); [done|].
      inversion Hneg as [|? ? Hc Hneg']; subst.
      inversion Heq as [|? ? ? ? Hab Heq']; subst.
      constructor; [lra|]. apply IH. exists s.
      split; [by injection Hs|done].
Qed.

(** The arrays computed for well-shaped dense inputs state the augmented
    problem. *)
Lemma augmented_arrays_augment (n m : nat) (Pr : list (list Q)) (qv : list Q)
    (Gr : list (list Q)) (hv : list Q) (sw reg : Q) :
  np.wf_rows n n Pr → length qv = n → np.wf_rows m n Gr →
  ∃ P2 q2 G2 h2 A2,
    augmented_arrays (Nd (np.Arr2 n Pr)) (Nd (np.Arr1 qv)) (Nd (np.Arr2 n Gr)) sw reg
    = Ok (np.Arr2 (n + m) P2, np.Arr1 q2, np.Arr2 (n + m) G2, np.Arr1 h2,
          np.Arr2 (n + m) A2)
    ∧ qp.augments n m Pr qv Gr hv sw reg P2 q2 G2 h2 A2 hv.
Proof.
  intros HP Hq HG. do 5 eexists. split; [by apply augmented_arrays_dense|].
  split; [by apply entry_P2|]. split.
  { apply Forall2_app; [apply vec_equiv_refl|].
    clear. induction m as [|k IH]; simpl; constructor; [ring|done]. }
  split; [done|].
  match goal with |- ?A ∧ _ => assert A as Hpoint end.
  { intros x s Hx Hs. split; [by apply (cost_augmented n m)|]. split.
    - unfold qp.ineq. rewrite <- Hs. apply le_zeros_equiv.
      rewrite Hs. by apply (matvec_G2 n m).
    - unfold qp.eq. apply eq_equiv_l. by apply (matvec_A2 n m). }
  split; [exact Hpoint|]. intros Hh x Hx. unfold qp.ineq at 1.
  rewrite le_iff_slack by (rewrite length_matvec; destruct HG; lia).
  rewrite length_matvec. destruct HG as [-> _].
  split; intros (s & Hs & H1 & H2); exists s; (split; [done|]);
    destruct (Hpoint x s Hx Hs) as (_ & Hi & He); split;
    (by apply Hi) || (by apply He).
Qed.

End inequalities.

Lemma load_app_first (σ l : heap) (a : pyarr) :
  load (σ ++ a :: l) (Obj (length σ) []) = a.
Proof. unfold load. simpl. by rewrite list_lookup_middle. Qed.

Lemma load_app_at (σ l : heap) (k : nat) :
  load (σ ++ l) (Obj (length σ + k) []) = default (Nd (np.Arr1 [])) (l !! k).
Proof.
  unfold load. simpl. by rewrite lookup_app_r, Nat.add_comm, Nat.add_sub by lia.
Qed.

Section safer_qp_dispatch.

Local Open Scope Q_scope.

Variable check_problem_constraints :
  option obj → option obj → option obj → option obj → M unit.
Variable concatenate_bounds :
  option obj → option obj → option obj → option obj → M (option obj * option obj).
Variable solve_function : gmap string adapter.
Variable dense_solvers : list string.

Local Abbreviation safer_qp :=
  (solve_safer_qp check_problem_constraints concatenate_bounds solve_function
     dense_solvers).
Local Abbreviation qp :=
  (solve_qp check_problem_constraints concatenate_bounds solve_function).

(** C1, as amended: for a dense solver and dense P (n x n), q (n),
    G (m x n) and h, [solve_safer_qp] builds five new arrays and calls
    [solve_qp] with them and with h itself as equality vector, without
    bounds; what it returns is the outcome of that call, cut to its first n
    entries.  The arrays state the augmented problem in [x; s]: block
    diagonal cost matrix of P and reg I, cost vector [q; -sw 1], the
    inequality [s <= 0] and the equality [G x - s = h]. *)
Theorem solve_safer_qp_augmented (P q G h : obj) (sw reg : Q) (solver : string)
    (initvals : option obj) (sym_proj : bool) (σ : heap) (n m : nat)
    (Pr : list (list Q)) (qv : list Q) (Gr : list (list Q)) (hv : list Q) :
  solver ∈ dense_solvers →
  load σ P = Nd (np.Arr2 n Pr) → np.wf_rows n n Pr →
  load σ q = Nd (np.Arr1 qv) → length qv = n →
  load σ G = Nd (np.Arr2 n Gr) → np.wf_rows m n Gr →
  load σ h = Nd (np.Arr1 hv) → (base h < length σ)%nat →
  ∃ σ1 P2 q2 G2 h2 A2 P2r q2v G2r h2v A2r,
    augmented_problem P q G h sw reg σ = (σ1, Ok (P2, q2, G2, h2, A2, h))
    ∧ safer_qp P q G h sw reg solver initvals sym_proj σ
      = match qp P2 q2 (Some G2) (Some h2) (Some A2) (Some h) None None
                solver initvals sym_proj false ∅ σ1 with
        | (σ2, Ok x) => (σ2, Ok ((λ x, slice_obj x None (Some (Z.of_nat n))) <$> x))
        | (σ2, Raise e) => (σ2, Raise e)
        end
    ∧ load σ1 P2 = Nd (np.Arr2 (n + m) P2r)
    ∧ load σ1 q2 = Nd (np.Arr1 q2v)
    ∧ load σ1 G2 = Nd (np.Arr2 (n + m) G2r)
    ∧ load σ1 h2 = Nd (np.Arr1 h2v)
    ∧ load σ1 A2 = Nd (np.Arr2 (n + m) A2r)
    ∧ load σ1 h = Nd (np.Arr1 hv)
    ∧ qp.augments n m Pr qv Gr hv sw reg P2r q2v G2r h2v A2r hv.
Proof.
  intros Hs HP HPr Hq Hqv HG HGr Hh Hbase.
  destruct (augmented_arrays_augment n m Pr qv Gr hv sw reg HPr Hqv HGr)
    as (P2r & q2v & G2r & h2v & A2r & Harr & Haug).
  pose proof (augmented_problem_run P q G h sw reg σ) as Hrun.
  rewrite HP, Hq, HG, Harr in Hrun.
  eexists _, _, _, _, _, _, P2r, q2v, G2r, h2v, A2r.
  split; [exact Hrun|]. split.
  { rewrite (solve_safer_qp_run _ _ _ _ _ _ _ _ _ _ _ _ _ _ Hs), Hrun, HP. simpl.
    by destruct HPr as [-> _]. }
  rewrite load_app_first, !load_app_at. simpl.
  do 5 (split; [done|]). split; [|done].
  rewrite <- Hh. apply load_prefix; [by apply prefix_app_r|done].
Qed.

End safer_qp_dispatch.

(** The example: n = m = 2, with "quadprog" as dense solver. *)
Lemma solve_safer_qp_augmented_witness :
  ∃ σ1 P2 q2 G2 h2 A2 P2r q2v G2r h2v A2r,
    augmented_problem ex.P ex.q ex.G ex.h 1 (1 # 100) ex.σ
    = (σ1, Ok (P2, q2, G2, h2, A2, ex.h))
    ∧ solve_safer_qp check_problem_constraints concatenate_bounds ex.solve_function
        ex.dense_solvers ex.P ex.q ex.G ex.h 1 (1 # 100) "quadprog" None false ex.σ
      = match solve_qp check_problem_constraints concatenate_bounds ex.solve_function
                P2 q2 (Some G2) (Some h2) (Some A2) (Some ex.h) None None
                "quadprog" None false false ∅ σ1 with
        | (σ2, Ok x) => (σ2, Ok ((λ x, slice_obj x None (Some (Z.of_nat 2))) <$> x))
        | (σ2, Raise e) => (σ2, Raise e)
        end
    ∧ load σ1 P2 = Nd (np.Arr2 (2 + 2) P2r)
    ∧ load σ1 q2 = Nd (np.Arr1 q2v)
    ∧ load σ1 G2 = Nd (np.Arr2 (2 + 2) G2r)
    ∧ load σ1 h2 = Nd (np.Arr1 h2v)
    ∧ load σ1 A2 = Nd (np.Arr2 (2 + 2) A2r)
    ∧ load σ1 ex.h = Nd (np.Arr1 [1; 1]%Q)
    ∧ qp.augments 2 2 [[2; 1]; [0; 2]]%Q [1; -1]%Q [[1; 0]; [0; 1]]%Q [1; 1]%Q
        1 (1 # 100) P2r q2v G2r h2v A2r [1; 1]%Q.
Proof.
  apply (solve_safer_qp_augmented check_problem_constraints concatenate_bounds
           ex.solve_function ex.dense_solvers ex.P ex.q ex.G ex.h 1 (1 # 100)
           "quadprog" None false ex.σ 2 2).
  - refine (bool_decide_unpack ("quadprog"%string ∈ ex.dense_solvers) _). by vm_compute.
  - reflexivity.
  - split; [reflexivity|]. by repeat constructor.
  - reflexivity.
  - reflexivity.
  - reflexivity.
  - split; [reflexivity|]. by repeat constructor.
  - reflexivity.
  - vm_compute. lia.
Defined.

(** C1 as stated fails on the inequality.  In the example the arrays passed
    as (G, h) to [solve_qp], which constrains [G z <= h], are [0 I] and 0: at
    x = 0, s = (1, 1) the slack is nonnegative and the inequality is
    violated, and at s = (-1, -1) the slack is negative and the inequality
    holds. *)
Lemma solve_safer_qp_inequality_sign :
  ∃ G2r h2v,
    augmented_problem ex.P ex.q ex.G ex.h 1 (1 # 100) ex.σ
    = (ex.aug.1, Ok (Obj 11 [], Obj 12 [], Obj 13 [], Obj 14 [], Obj 15 [], ex.h))
    ∧ load ex.aug.1 (Obj 13 []) = Nd (np.Arr2 4 G2r)
    ∧ load ex.aug.1 (Obj 14 []) = Nd (np.Arr1 h2v)
    ∧ (Forall (λ si, 0 <= si)%Q [1; 1]%Q ∧ ¬ qp.ineq G2r h2v ([0; 0] ++ [1; 1])%Q)
    ∧ (¬ Forall (λ si, 0 <= si)%Q [-1; -1]%Q ∧ qp.ineq G2r h2v ([0; 0] ++ [-1; -1])%Q).
Proof.
  do 2 eexists. split; [by vm_compute|]. split; [by vm_compute|]. split; [by vm_compute|].
  split; split.
  - by repeat constructor.
  - intros Hle. inversion Hle as [|? ? ? ? H1 _]; subst. by vm_compute in H1.
  - intros Hle. inversion Hle as [|? ? H1 _]; subst. by vm_compute in H1.
  - unfold qp.ineq. vm_compute. by repeat constructor.
Qed.

(** * Further properties *)

(** ** Symmetrization: what it computes and when it fails *)

Section symmetrization_more.

Local Open Scope Q_scope.

Lemma half_sum_transpose_square (P : pyarr) (n : nat) :
  qp.square P n →
  ∃ S, half_sum_transpose P = Ok S
       ∧ qp.square S n
       ∧ rows_of S = np.tab n n (sym_entry (rows_of P)).
Proof.
  destruct P as [[v|c rows]|[c rows]]; simpl; [done| |]; intros [-> Hwf].
  - eexists. split; [by apply half_sum_transpose_dense|].
    split; [split; [done|apply wf_rows_tab]|done].
  - eexists. split; [by apply half_sum_transpose_sparse|].
    split; [split; [done|apply wf_rows_tab]|done].
Qed.

(** X1: on a square matrix, dense or sparse, symmetrization succeeds, keeps
    the shape, and gives the matrix of entries (P[i][j] + P[j][i]) / 2,
    which is symmetric. *)
Theorem sym_proj_symmetric (P : pyarr) (n : nat) :
  qp.square P n →
  ∃ S, half_sum_transpose P = Ok S
       ∧ qp.square S n
       ∧ (∀ i j, (i < n)%nat → (j < n)%nat →
            np.entry (rows_of S) i j
            == (1 # 2) * (np.entry (rows_of P) i j + np.entry (rows_of P) j i))
       ∧ symmetric_entries n (rows_of S).
Proof.
  intros HP. destruct (half_sum_transpose_square P n HP) as (S & HS & Hsq & Hrows).
  exists S. split; [done|]. split; [done|]. rewrite Hrows. split.
  - intros i j Hi Hj. by rewrite entry_tab.
  - intros i j Hi Hj. rewrite !entry_tab by done. unfold sym_entry. ring.
Qed.

End symmetrization_more.

Section symmetrization_errors.

Local Open Scope Q_scope.

Lemma bdim_Raise (d1 d2 : nat) (e : exn) :
  np.bdim d1 d2 = Raise e ↔ e = ValueError ∧ d1 ≠ d2 ∧ d1 ≠ 1%nat ∧ d2 ≠ 1%nat.
Proof.
  unfold np.bdim.
  destruct (Nat.eqb_spec d1 d2), (Nat.eqb_spec d1 1), (Nat.eqb_spec d2 1);
    (split; [intros [= <-] || intros [=]|intros (-> & ? & ? & ?)]); done.
Qed.

Lemma bdim_Ok (d1 d2 : nat) :
  d1 = d2 ∨ d1 = 1%nat ∨ d2 = 1%nat → ∃ d, np.bdim d1 d2 = Ok d.
Proof.
  intros H. destruct (np.bdim d1 d2) as [d|e] eqn:Hd; [by eexists|].
  apply bdim_Raise in Hd. lia.
Qed.

Lemma half_sum_transpose_Raise (a : pyarr) (e : exn) :
  half_sum_transpose a = Raise e ↔ e = ValueError ∧ transpose_mismatch a.
Proof.
  destruct a as [[v|c rows]|[c rows]]; simpl.
  - unfold np.add. simpl. rewrite !bdim_same. simpl. by split; [|intros []].
  - unfold np.add. simpl. rewrite length_tab. split.
    + destruct (np.bdim (length rows) c) as [d|e'] eqn:H1; simpl.
      { destruct (np.bdim c (length rows)) as [d'|e'] eqn:H2; simpl; [done|].
        intros [= <-]. apply bdim_Raise in H2. split; [tauto|]. lia. }
      intros [= <-]. apply bdim_Raise in H1. split; [tauto|]. lia.
    + intros (-> & H1 & H2 & H3).
      destruct (np.bdim (length rows) c) as [d|e'] eqn:Hd; simpl.
      { destruct (bdim_Raise (length rows) c ValueError) as [_ Hr].
        rewrite Hr in Hd by done. done. }
      apply bdim_Raise in Hd. by destruct Hd as [-> _].
  - unfold np.csc_add. simpl. rewrite length_tab.
    destruct (Nat.eqb_spec (length rows) c) as [->|Hne]; simpl.
    + rewrite Nat.eqb_refl. by split; [|intros []].
    + split; [by intros [= <-]|by intros [-> _]].
Qed.

(** X3: [0.5 * (P + P.transpose())] raises exactly on the shapes that do not
    combine with their transpose, and then it raises ValueError; with
    [sym_proj] set, [solve_qp] then ends with that error in the heap it was
    called in, whatever the constraints, the helpers and the registry. *)
Theorem sym_proj_fails_iff (a : pyarr) (e : exn) :
  (half_sum_transpose a = Raise e ↔ e = ValueError ∧ transpose_mismatch a)
  ∧ ∀ check_problem_constraints concatenate_bounds solve_function
      (σ : heap) (P q : obj) (G h A b lb ub : option obj) (solver : string)
      (initvals : option obj) (verbose : bool) (kwargs : gmap string pyval),
      load σ P = a → half_sum_transpose a = Raise e →
      solve_qp check_problem_constraints concatenate_bounds solve_function
        P q G h A b lb ub solver initvals true verbose kwargs σ = (σ, Raise e).
Proof.
  split; [apply half_sum_transpose_Raise|].
  intros check concat reg σ P q G h A b lb ub solver initvals verbose kwargs Ha He.
  unfold solve_qp, normalize. munfold.
  by rewrite sym_proj_step_run, Ha, He.
Qed.

(** X4: a dense cost matrix with a single row of n entries is not rejected
    by symmetrization: broadcasting makes it the n-by-n matrix of entries
    (row[j] + row[i]) / 2. *)
Theorem sym_proj_row_matrix (row : list Q) :
  ∃ rows,
    half_sum_transpose (Nd (np.Arr2 (length row) [row]))
    = Ok (Nd (np.Arr2 (length row) rows))
    ∧ np.wf_rows (length row) (length row) rows
    ∧ ∀ i j, (i < length row)%nat → (j < length row)%nat →
        np.entry rows i j == (1 # 2) * (nth j row 0 + nth i row 0).
Proof.
  set (n := length row).
  destruct (bdim_Ok 1 n) as [d1 Hd1]; [tauto|].
  destruct (bdim_Ok n 1) as [d2 Hd2]; [tauto|].
  assert (d1 = n) as ->.
  { unfold np.bdim in Hd1.
    destruct (Nat.eqb_spec 1 n); simpl in Hd1; [congruence|by injection Hd1]. }
  assert (d2 = n) as ->.
  { unfold np.bdim in Hd2. destruct (Nat.eqb_spec n 1); [congruence|].
    destruct (Nat.eqb_spec n 1); [done|]. simpl in Hd2. congruence. }
  eexists. unfold half_sum_transpose, np.add. simpl.
  rewrite length_tab. fold n. rewrite Hd1, Hd2. simpl.
  split; [reflexivity|]. rewrite map_map_tab.
  split; [apply wf_rows_tab|]. intros i j Hi Hj.
  rewrite entry_tab by done. simpl.
  change (np.bidx 1 i) with 0%nat. change (np.bidx 1 j) with 0%nat.
  assert (np.entry [row] 0 (np.bidx n j) = nth j row 0) as ->.
  { unfold np.entry, np.bidx. simpl. destruct (Nat.eqb_spec n 1); [|done].
    by replace j with 0%nat by lia. }
  assert (np.entry (np.tab n 1 (λ i0 j0, np.entry [row] j0 i0)) (np.bidx n i) 0
          = nth i row 0) as ->; [|reflexivity].
  unfold np.bidx. destruct (Nat.eqb_spec n 1) as [Hn|Hn].
  - rewrite entry_tab by lia. unfold np.entry. simpl. by replace i with 0%nat by lia.
  - by rewrite entry_tab by lia.
Qed.

End symmetrization_errors.

(** The cost matrix of the example, [[2, 1], [0, 2]], becomes the symmetric
    [[2, 1/2], [1/2, 2]]. *)
Lemma sym_proj_symmetric_witness :
  ∃ S, half_sum_transpose (load ex.σ ex.P) = Ok S
       ∧ qp.square S 2
       ∧ (∀ i j, (i < 2)%nat → (j < 2)%nat →
            np.entry (rows_of S) i j
            == (1 # 2) * (np.entry (rows_of (load ex.σ ex.P)) i j
                          + np.entry (rows_of (load ex.σ ex.P)) j i))%Q
       ∧ symmetric_entries 2 (rows_of S).
Proof.
  apply (sym_proj_symmetric (load ex.σ ex.P) 2).
  vm_compute. repeat constructor.
Defined.

(** A 2-by-3 cost matrix does not combine with its transpose. *)
Lemma sym_proj_fails_iff_witness :
  transpose_mismatch (load ex2.σ ex2.wide)
  ∧ solve_qp check_problem_constraints concatenate_bounds ex.solve_function
      ex2.wide ex2.q None None None None None None "quadprog" None true false ∅ ex2.σ
    = (ex2.σ, Raise ValueError).
Proof.
  split.
  - apply (proj1 (sym_proj_fails_iff (load ex2.σ ex2.wide) ValueError)). by vm_compute.
  - apply (proj2 (sym_proj_fails_iff (load ex2.σ ex2.wide) ValueError));
      [reflexivity|by vm_compute].
Defined.

(** ** Reshaping and the handler of KeyError *)

(** X5: the reshaping step never raises and leaves the heap as it is; what
    it returns is never a flat ndarray, so that an adapter is never handed a
    one-dimensional A or G; the step applied to its own result changes
    nothing, and an absent matrix stays absent. *)
Theorem reshape_step_stable (σ : heap) (A : option obj) :
  ∃ A', reshape_step A σ = (σ, Ok A')
        ∧ (∀ o, A' = Some o → is_flat (load σ o) = false)
        ∧ reshape_step A' σ = (σ, Ok A')
        ∧ (A' = None ↔ A = None).
Proof.
  assert (∀ o, is_flat (load σ o) = true → is_flat (load σ (as_row o)) = false) as Hrow.
  { intros o Ho. unfold load, as_row in *. simpl. rewrite foldl_app. simpl.
    destruct (foldl _ _ _) as [[v|c rows]|s]; done. }
  exists (reshaped σ A). rewrite !reshape_step_run.
  split; [done|]. destruct A as [o|]; simpl; [|done].
  destruct (is_flat (load σ o)) eqn:Ho; simpl.
  - rewrite (Hrow o Ho). split; [|done]. intros o' [= <-]. by apply Hrow.
  - rewrite Ho. split; [|done]. by intros o' [= <-].
Qed.

Section solve_qp_more.

Variable check_problem_constraints :
  option obj → option obj → option obj → option obj → M unit.
Variable concatenate_bounds :
  option obj → option obj → option obj → option obj → M (option obj * option obj).
Variable solve_function : gmap string adapter.

Local Abbreviation normal := (normalize check_problem_constraints concatenate_bounds).
Local Abbreviation solve :=
  (solve_qp check_problem_constraints concatenate_bounds solve_function).

(** X6: when normalization does not raise KeyError, neither does
    [solve_qp]: a missing solver and a KeyError from inside an adapter are
    both caught by the handler. *)
Theorem solve_qp_never_KeyError (P q : obj) (G h A b lb ub : option obj)
    (solver : string) (initvals : option obj) (sym_proj verbose : bool)
    (kwargs : gmap string pyval) (σ : heap) :
  (normal P G h A b lb ub initvals sym_proj verbose kwargs σ).2 ≠ Raise KeyError →
  (solve P q G h A b lb ub solver initvals sym_proj verbose kwargs σ).2 ≠ Raise KeyError.
Proof.
  intros Hnorm. rewrite solve_qp_run.
  destruct (normal _ _ _ _ _ _ _ _ _ _ _) as [σ1 [[[[[P' G'] h'] A'] kwargs']|e]];
    simpl in *; [|intros [= ->]; by apply Hnorm].
  unfold M in *. destruct (solve_function !! solver) as [f|] eqn:Hf; simpl; [|done].
  by destruct (f _ _ _ _ _ _ _ _) as [σ2 [r|[]]].
Qed.

End solve_qp_more.

(** ** [solve_safer_qp]: shapes of the augmented problem *)

Section shapes.

Lemma wf_rows_hstack (r c1 c2 : nat) (A B : list (list Q)) :
  np.wf_rows r c1 A → np.wf_rows r c2 B → np.wf_rows r (c1 + c2) (zip_with app A B).
Proof.
  intros [HA HAr] [HB HBr]. split.
  - rewrite length_zip_with_l_eq; lia.
  - clear HA HB. revert B HBr.
    induction HAr as [|a A Ha HAr IH]; intros [|b B] HBr; simpl; try constructor.
    + inversion HBr; subst. rewrite length_app. lia.
    + inversion HBr; subst. by apply IH.
Qed.

Lemma wf_rows_vstack (r1 r2 c : nat) (A B : list (list Q)) :
  np.wf_rows r1 c A → np.wf_rows r2 c B → np.wf_rows (r1 + r2) c (A ++ B).
Proof.
  intros [HA HAr] [HB HBr]. split.
  - rewrite length_app. lia.
  - by apply Forall_app.
Qed.

Lemma wf_rows_zeros (m n : nat) (x : Q) : np.wf_rows m n (replicate m (replicate n x)).
Proof.
  split; [apply length_replicate|].
  apply Forall_forall. intros row ->%elem_of_replicate_inv. apply length_replicate.
Qed.

Lemma wf_rows_map (r c : nat) (f : Q → Q) (A : list (list Q)) :
  np.wf_rows r c A → np.wf_rows r c (map (map f) A).
Proof.
  intros [HA HAr]. split; [by rewrite length_map|].
  apply Forall_forall. intros row Hrow%list_elem_of_In.
  apply in_map_iff in Hrow as [row' [<- Hin%list_elem_of_In]].
  rewrite length_map. by apply (proj1 (Forall_forall _ _) HAr).
Qed.

End shapes.

Section augmented_more.

Local Open Scope Q_scope.

(** X7: on dense arrays the augmented problem is built exactly when P is a
    square matrix, q is flat and G is a matrix; no other shape is checked.
    On any other shapes [solve_safer_qp] raises ValueError before it turns
    to a solver, and leaves the heap as it is. *)
Theorem solve_safer_qp_shapes (p qa g : np.ndarray) (sw reg : Q) :
  (if augmentable p qa g
   then ∃ arrays, augmented_arrays (Nd p) (Nd qa) (Nd g) sw reg = Ok arrays
   else augmented_arrays (Nd p) (Nd qa) (Nd g) sw reg = Raise ValueError)
  ∧ ∀ check concat (registry : gmap string adapter) (dense_solvers : list string)
      (P q G h : obj) (solver : string) (initvals : option obj) (sym_proj : bool)
      (σ : heap),
      load σ P = Nd p → load σ q = Nd qa → load σ G = Nd g →
      solver ∈ dense_solvers →
      augmentable p qa g = false →
      solve_safer_qp check concat registry dense_solvers P q G h sw reg solver
        initvals sym_proj σ = (σ, Raise ValueError).
Proof.
  assert (if augmentable p qa g
          then ∃ arrays, augmented_arrays (Nd p) (Nd qa) (Nd g) sw reg = Ok arrays
          else augmented_arrays (Nd p) (Nd qa) (Nd g) sw reg = Raise ValueError) as Hcases.
  { unfold augmented_arrays, augmentable.
    destruct p as [v|c rows]; simpl; [done|].
    rewrite !length_map, !length_tab, !length_replicate, !Nat.eqb_refl. simpl.
    unfold np.vstack. simpl.
    destruct (Nat.eqb_spec c (length rows)) as [->|Hc].
    - rewrite Nat.eqb_refl. simpl.
      destruct qa as [v|c' rows']; simpl; [|done].
      destruct g as [w|c' G]; simpl; [done|].
      rewrite !length_map, !length_tab, !Nat.eqb_refl. simpl.
      by eexists.
    - destruct (Nat.eqb_spec (c + np.shape0 g) (length rows + np.shape0 g));
        [lia|]. simpl. by destruct qa, g. }
  split; [exact Hcases|].
  intros check concat registry dense_solvers P q G h solver initvals sym_proj σ
    HP Hq HG Hs Hno.
  rewrite Hno in Hcases.
  rewrite solve_safer_qp_run by done.
  by rewrite augmented_problem_run, HP, Hq, HG, Hcases.
Qed.

Variables n m : nat.
Variable Pr : list (list Q).
Variable qv : list Q.
Variable Gr : list (list Q).
Variables sw reg : Q.

Hypothesis P_shape : np.wf_rows n n Pr.
Hypothesis q_length : length qv = n.
Hypothesis G_shape : np.wf_rows m n Gr.

(** X8: for a problem with n variables and m inequality rows, the
    augmented problem has n + m variables, m inequality rows and m equality
    rows: every array built has the matching shape. *)
Theorem augmented_arrays_shapes :
  ∃ P2 q2 G2 h2 A2,
    augmented_arrays (Nd (np.Arr2 n Pr)) (Nd (np.Arr1 qv)) (Nd (np.Arr2 n Gr)) sw reg
    = Ok (np.Arr2 (n + m) P2, np.Arr1 q2, np.Arr2 (n + m) G2, np.Arr1 h2,
          np.Arr2 (n + m) A2)
    ∧ np.wf_rows (n + m) (n + m) P2
    ∧ length q2 = (n + m)%nat
    ∧ np.wf_rows m (n + m) G2
    ∧ length h2 = m
    ∧ np.wf_rows m (n + m) A2.
Proof using P_shape q_length G_shape.
  do 5 eexists. split; [by apply (augmented_arrays_dense n m)|].
  split; [|split; [|split; [|split]]].
  - apply wf_rows_vstack; apply wf_rows_hstack;
      auto using wf_rows_tab, wf_rows_zeros, wf_rows_map.
  - by rewrite length_app, length_map, length_replicate, q_length.
  - apply wf_rows_hstack; auto using wf_rows_tab, wf_rows_zeros.
  - apply length_replicate.
  - apply wf_rows_hstack; auto using wf_rows_tab, wf_rows_map.
Qed.

(** X9: the cost matrix of the augmented problem is symmetric exactly when
    P is. *)
Theorem augmented_cost_symmetric
    (arrays : np.ndarray * np.ndarray * np.ndarray * np.ndarray * np.ndarray) :
  augmented_arrays (Nd (np.Arr2 n Pr)) (Nd (np.Arr1 qv)) (Nd (np.Arr2 n Gr)) sw reg
  = Ok arrays →
  symmetric_entries (n + m) (rows_of (Nd arrays.1.1.1.1)) ↔ symmetric_entries n Pr.
Proof using P_shape G_shape.
  clear q_length. rewrite (augmented_arrays_dense n m) by done. intros [= <-]. simpl.
  split; intros Hsym i j Hi Hj.
  - specialize (Hsym i j ltac:(lia) ltac:(lia)).
    rewrite !(entry_P2 n m Pr reg P_shape) in Hsym by lia.
    destruct (Nat.ltb_spec i n), (Nat.ltb_spec j n); try lia. exact Hsym.
  - rewrite !(entry_P2 n m Pr reg P_shape) by lia.
    destruct (Nat.ltb_spec i n), (Nat.ltb_spec j n); simpl.
    + by apply Hsym.
    + destruct (Nat.eqb_spec i j), (Nat.eqb_spec j i); (lia || reflexivity).
    + destruct (Nat.eqb_spec i j), (Nat.eqb_spec j i); (lia || reflexivity).
    + destruct (Nat.eqb_spec i j), (Nat.eqb_spec j i); (lia || reflexivity).
Qed.

End augmented_more.

(** A flat array in the place of P is rejected; the 2-by-2 example goes
    through. *)
Lemma solve_safer_qp_shapes_witness :
  (∃ arrays, augmented_arrays (load ex.σ ex.P) (load ex.σ ex.q) (load ex.σ ex.G)
               1 (1 # 100) = Ok arrays)
  ∧ solve_safer_qp check_problem_constraints concatenate_bounds ex.solve_function
      ex.dense_solvers ex.a ex.q ex.G ex.h 1 (1 # 100) "quadprog" None false ex.σ
    = (ex.σ, Raise ValueError).
Proof.
  split.
  - exact (proj1 (solve_safer_qp_shapes (np.Arr2 2 [[2; 1]; [0; 2]]) (np.Arr1 [1; -1])
                    (np.Arr2 2 [[1; 0]; [0; 1]]) 1 (1 # 100))%Q).
  - apply (proj2 (solve_safer_qp_shapes (np.Arr1 [1; 1]) (np.Arr1 [1; -1])
                    (np.Arr2 2 [[1; 0]; [0; 1]]) 1 (1 # 100))%Q);
      try reflexivity.
    refine (bool_decide_unpack ("quadprog"%string ∈ ex.dense_solvers) _). by vm_compute.
Defined.

(** The 2-by-2 example gives a problem in four variables. *)
Lemma augmented_arrays_shapes_witness :
  ∃ P2 q2 G2 h2 A2,
    augmented_arrays (load ex.σ ex.P) (load ex.σ ex.q) (load ex.σ ex.G) 1 (1 # 100)
    = Ok (np.Arr2 4 P2, np.Arr1 q2, np.Arr2 4 G2, np.Arr1 h2, np.Arr2 4 A2)
    ∧ np.wf_rows 4 4 P2
    ∧ length q2 = 4
    ∧ np.wf_rows 2 4 G2
    ∧ length h2 = 2
    ∧ np.wf_rows 2 4 A2.
Proof.
  apply (augmented_arrays_shapes 2 2 [[2; 1]; [0; 2]] [1; -1] [[1; 0]; [0; 1]]
           1 (1 # 100))%Q.
  - split; [reflexivity|repeat constructor].
  - reflexivity.
  - split; [reflexivity|repeat constructor].
Defined.

(** The cost matrix of the example is not symmetric, and neither is the
    augmented one. *)
Lemma augmented_cost_symmetric_witness :
  ∃ arrays,
    augmented_arrays (load ex.σ ex.P) (load ex.σ ex.q) (load ex.σ ex.G) 1 (1 # 100)
    = Ok arrays
    ∧ (symmetric_entries 4 (rows_of (Nd arrays.1.1.1.1))
       ↔ symmetric_entries 2 (rows_of (load ex.σ ex.P))).
Proof.
  eexists. split; [vm_compute; reflexivity|].
  apply (augmented_cost_symmetric 2 2 [[2; 1]; [0; 2]] [1; -1] [[1; 0]; [0; 1]]
           1 (1 # 100))%Q.
  - split; [reflexivity|repeat constructor].
  - split; [reflexivity|repeat constructor].
  - vm_compute. reflexivity.
Defined.

(** The adapter registered as "osqp" raises KeyError, and the call reports
    SolverNotFound. *)
Lemma solve_qp_never_KeyError_witness :
  (solve_qp check_problem_constraints concatenate_bounds ex.solve_function ex.P ex.q
     (Some ex.G) (Some ex.h) None None None None "osqp" None false false ∅ ex.σ).2
  ≠ Raise KeyError.
Proof.
  apply (solve_qp_never_KeyError check_problem_constraints concatenate_bounds
           ex.solve_function).
  by vm_compute.
Defined.

(** ** [solve_safer_qp] does not write into the arrays it is given *)

Section solve_safer_qp_frame.

Variable check_problem_constraints :
  option obj → option obj → option obj → option obj → M unit.
Variable concatenate_bounds :
  option obj → option obj → option obj → option obj → M (option obj * option obj).
Variable solve_function : gmap string adapter.
Variable dense_solvers : list string.

Hypothesis check_keeps :
  ∀ G h A b, keeps_heap (check_problem_constraints G h A b).
Hypothesis concatenate_keeps :
  ∀ G h lb ub, keeps_heap (concatenate_bounds G h lb ub).
Hypothesis adapters_keep :
  ∀ name f, solve_function !! name = Some f →
    ∀ P q G h A b kwargs, keeps_heap (f P q G h A b kwargs).

Lemma solve_qp_keeps (P q : obj) (G h A b lb ub : option obj)
    (solver : string) (initvals : option obj) (sym_proj verbose : bool)
    (kwargs : gmap string pyval) :
  keeps_heap (solve_qp check_problem_constraints concatenate_bounds solve_function
                P q G h A b lb ub solver initvals sym_proj verbose kwargs).
Proof using check_keeps concatenate_keeps adapters_keep.
  unfold solve_qp. apply keeps_heap_bind; [by apply normalize_keeps|].
  intros [[[[P' G'] h'] A'] kwargs'].
  apply keeps_heap_try.
  - unfold dispatch. destruct (solve_function !! solver) as [f|] eqn:Hf.
    + by eapply adapters_keep.
    + apply keeps_heap_raise.
  - intros e. unfold on_KeyError. destruct e; apply keeps_heap_raise.
Qed.

Lemma augmented_problem_keeps (P q G h : obj) (sw reg : Q) :
  keeps_heap (augmented_problem P q G h sw reg).
Proof.
  intros σ. rewrite augmented_problem_run.
  destruct (augmented_arrays _ _ _ _ _) as [[[[[P2 q2] G2] h2] A2]|e]; simpl; [|done].
  by apply prefix_app_r.
Qed.

(** X11: when the two helpers and the registered adapters do not write into
    existing arrays, neither does [solve_safer_qp]: whether it returns or
    raises, every array of the heap it was called in is as before.  The
    problem that it hands to [solve_qp] consists of five new arrays, put
    after the arrays of the caller (P2, q2, G2, h2 and A2, in this order),
    and of the caller's own h as b2. *)
Theorem solve_safer_qp_keeps_arrays (P q G h : obj) (sw reg : Q) (solver : string)
    (initvals : option obj) (sym_proj : bool) (σ : heap) :
  let run := solve_safer_qp check_problem_constraints concatenate_bounds
               solve_function dense_solvers P q G h sw reg solver initvals
               sym_proj σ in
  let σ' := run.1 in
  (σ `prefix_of` σ' ∧ ∀ o, base o < length σ → load σ' o = load σ o)
  ∧ (solver ∈ dense_solvers →
     ∀ P2 q2 G2 h2 A2,
       augmented_arrays (load σ P) (load σ q) (load σ G) sw reg
       = Ok (P2, q2, G2, h2, A2) →
       run = match solve_qp check_problem_constraints concatenate_bounds
                     solve_function
                     (Obj (length σ) []) (Obj (length σ + 1) [])
                     (Some (Obj (length σ + 2) [])) (Some (Obj (length σ + 3) []))
                     (Some (Obj (length σ + 4) [])) (Some h) None None
                     solver initvals sym_proj false ∅
                     (σ ++ [Nd P2; Nd q2; Nd G2; Nd h2; Nd A2]) with
             | (σ2, Ok x) =>
                 (σ2, Ok ((λ x, slice_obj x None
                                  (Some (Z.of_nat (shape0 (load σ P))))) <$> x))
             | (σ2, Raise e) => (σ2, Raise e)
             end).
Proof using check_keeps concatenate_keeps adapters_keep.
  intros run σ'. split.
  - assert (keeps_heap (solve_safer_qp check_problem_constraints concatenate_bounds
                          solve_function dense_solvers P q G h sw reg solver initvals
                          sym_proj)) as Hkeeps.
    { unfold solve_safer_qp.
      apply keeps_heap_bind.
      { unfold assert. destruct (bool_decide _); auto with keeps. }
      intros _. apply keeps_heap_bind; [auto with keeps|intros Pv].
      apply keeps_heap_bind; [apply augmented_problem_keeps|].
      intros [[[[[P2 q2] G2] h2] A2] b2].
      apply keeps_heap_bind; [apply solve_qp_keeps|].
      intros [x|]; apply keeps_heap_ret. }
    split; [apply Hkeeps|].
    intros o Ho. apply load_prefix; [apply Hkeeps|done].
  - intros Hs P2 q2 G2 h2 A2 Harrays. unfold run.
    rewrite solve_safer_qp_run by done.
    by rewrite augmented_problem_run, Harrays.
Qed.

End solve_safer_qp_frame.

(** In the example, P, q, G and h hold after the call what they held
    before, and the problem handed on starts at the first location after the
    eleven arrays of the caller. *)
Lemma solve_safer_qp_keeps_arrays_witness :
  let run := solve_safer_qp check_problem_constraints concatenate_bounds
               ex.solve_function ex.dense_solvers ex.P ex.q ex.G ex.h 1 (1 # 100)
               "quadprog" None true ex.σ in
  let σ' := run.1 in
  ex.σ `prefix_of` σ'
  ∧ load σ' ex.P = load ex.σ ex.P
  ∧ load σ' ex.q = load ex.σ ex.q
  ∧ load σ' ex.G = load ex.σ ex.G
  ∧ load σ' ex.h = load ex.σ ex.h
  ∧ ∃ P2 q2 G2 h2 A2,
      run = match solve_qp check_problem_constraints concatenate_bounds
                    ex.solve_function
                    (Obj 11 []) (Obj 12 []) (Some (Obj 13 [])) (Some (Obj 14 []))
                    (Some (Obj 15 [])) (Some ex.h) None None
                    "quadprog" None true false ∅
                    (ex.σ ++ [Nd P2; Nd q2; Nd G2; Nd h2; Nd A2]) with
            | (σ2, Ok x) =>
                (σ2, Ok ((λ x, slice_obj x None (Some 2%Z)) <$> x))
            | (σ2, Raise e) => (σ2, Raise e)
            end.
Proof.
  destruct (solve_safer_qp_keeps_arrays check_problem_constraints concatenate_bounds
              ex.solve_function ex.dense_solvers check_problem_constraints_keeps
              concatenate_bounds_keeps ex_adapters_keep
              ex.P ex.q ex.G ex.h 1 (1 # 100) "quadprog" None true ex.σ)
    as [[Hprefix Hload] Hnew].
  split; [exact Hprefix|].
  do 4 (split; [apply Hload; vm_compute; lia|]).
  assert (∃ P2 q2 G2 h2 A2,
            augmented_arrays (load ex.σ ex.P) (load ex.σ ex.q) (load ex.σ ex.G)
              1 (1 # 100) = Ok (P2, q2, G2, h2, A2))
    as (P2 & q2 & G2 & h2 & A2 & Harrays)
    by (do 5 eexists; vm_compute; reflexivity).
  exists P2, q2, G2, h2, A2. apply Hnew; [|exact Harrays].
  refine (bool_decide_unpack ("quadprog"%string ∈ ex.dense_solvers) _). by vm_compute.
Defined.

(** ** PIQP: the two parts of the dual vector, and the dense path *)

(** [l[:k] + l[k:]] is [l], for every index k. *)
Lemma py_slice_split {A} (k : Z) (l : list A) :
  py_slice None (Some k) l ++ py_slice (Some k) None l = l.
Proof.
  unfold py_slice. simpl. rewrite Nat.sub_0_r.
  set (b := slice_bound (length l) k).
  rewrite (take_ge (drop b l)) by (rewrite length_drop; lia).
  apply take_drop.
Qed.

Section piqp_more.

Variable piqp : piqp_api.

(** X12: with a bound given, [z] and [z_box] are two views of the solver's
    dual vector that split it in two: for every number of variables, the
    entries of [z] followed by those of [z_box] are the entries of the
    vector, none lost and none repeated; [z_box] has n entries when the
    vector has at least n and n is positive. *)
Theorem piqp_solve_problem_duals_split
    (ensure_sparse_matrices : obj → option obj → option obj →
                              M (obj * option obj * option obj))
    (problem : Problem.t) (verbose : bool)
    (backend : option string) (kwargs : gmap string pyval) (σ σ' : heap)
    (sol : Solution.t (info_t piqp)) :
  piqp_solve_problem piqp ensure_sparse_matrices problem verbose backend kwargs σ
  = (σ', Ok sol) →
  is_given (Problem.lb problem) || is_given (Problem.ub problem) = true →
  let n := shape0 (load σ (Problem.q problem)) in
  ∃ (s : solver_t piqp) (z z_box : obj),
    Solution.z sol = Some z ∧ Solution.z_box sol = Some z_box
    ∧ base z = base (result_z piqp s) ∧ base z_box = base (result_z piqp s)
    ∧ ∀ zv, load σ' (result_z piqp s) = Nd (np.Arr1 zv) →
        ∃ u v, load σ' z = Nd (np.Arr1 u) ∧ load σ' z_box = Nd (np.Arr1 v)
               ∧ u ++ v = zv
               ∧ (0 < n ≤ length zv → length v = n).
Proof.
  intros Hrun Hb n. apply piqp_solve_problem_returns in Hrun as (s & status & ->).
  simpl. rewrite Hb. do 3 eexists. split; [done|]. split; [done|].
  split; [done|]. split; [done|].
  intros zv Hz. rewrite !load_slice_obj, Hz. simpl. do 2 eexists.
  split; [done|]. split; [done|]. split; [apply py_slice_split|].
  intros [Hn Hlen]. fold n. rewrite py_slice_last by done.
  rewrite length_drop. lia.
Qed.

(** X13: when P is an ndarray and G and A are ndarrays or absent, the
    matrices are not converted: the run is the same whatever
    [ensure_sparse_matrices] does. *)
Theorem piqp_solve_problem_dense_path
    (ensure ensure' : obj → option obj → option obj →
                      M (obj * option obj * option obj))
    (problem : Problem.t) (verbose : bool)
    (backend : option string) (kwargs : gmap string pyval) (σ : heap) :
  is_ndarray (load σ (Problem.P problem)) = true →
  given_not_ndarray σ (Problem.G problem) = false →
  given_not_ndarray σ (Problem.A problem) = false →
  piqp_solve_problem piqp ensure problem verbose backend kwargs σ
  = piqp_solve_problem piqp ensure' problem verbose backend kwargs σ.
Proof.
  intros HP HG HA. destruct problem as [P q G h A b lb ub]. simpl in *.
  unfold piqp_solve_problem. simpl.
  rewrite !run_bind, !run_get, !run_bind. simpl.
  by rewrite HP, HG, HA.
Qed.

End piqp_more.

(** A run of the example with a lower bound on two variables: the solver's
    dual vector [3; 4; 5; 6] is split into [3; 4] and [5; 6]. *)
Lemma piqp_solve_problem_duals_split_witness :
  ∃ sol z z_box,
    piqp_solve_problem ex.piqp ex.ensure_sparse_matrices
      (Problem.Build ex.P ex.q (Some ex.G) (Some ex.h) None None (Some ex.lb) None)
      false None ∅ ex.σ = (ex.σ, Ok sol)
    ∧ Solution.z sol = Some z ∧ Solution.z_box sol = Some z_box
    ∧ ∃ u v, load ex.σ z = Nd (np.Arr1 u) ∧ load ex.σ z_box = Nd (np.Arr1 v)
             ∧ (u ++ v = [3; 4; 5; 6])%Q ∧ length v = 2.
Proof.
  assert (∃ sol, piqp_solve_problem ex.piqp ex.ensure_sparse_matrices
                   (Problem.Build ex.P ex.q (Some ex.G) (Some ex.h) None None
                      (Some ex.lb) None)
                   false None ∅ ex.σ = (ex.σ, Ok sol)) as [sol Hrun]
    by (eexists; vm_compute; reflexivity).
  destruct (piqp_solve_problem_duals_split ex.piqp ex.ensure_sparse_matrices _ _ _ _ _ _
              sol Hrun eq_refl) as (s & z & z_box & Hz & Hzb & _ & _ & Hsplit).
  destruct (Hsplit [3; 4; 5; 6]%Q eq_refl) as (u & v & Hu & Hv & Huv & Hlen).
  exists sol, z, z_box. split; [done|]. split; [done|]. split; [done|].
  exists u, v. split; [done|]. split; [done|]. split; [done|].
  apply Hlen. simpl. lia.
Defined.

(** On the dense example a conversion that always fails makes no
    difference. *)
Lemma piqp_solve_problem_dense_path_witness :
  piqp_solve_problem ex.piqp ex.ensure_sparse_matrices
    (Problem.Build ex.P ex.q (Some ex.G) (Some ex.h) None None None None)
    false None ∅ ex.σ
  = piqp_solve_problem ex.piqp (λ _ _ _, raise ValueError)
      (Problem.Build ex.P ex.q (Some ex.G) (Some ex.h) None None None None)
      false None ∅ ex.σ.
Proof.
  apply (piqp_solve_problem_dense_path ex.piqp); reflexivity.
Defined.

(** ** HiGHS: the model that the adapter builds *)

Section doubles.

Local Open Scope Q_scope.

Lemma within_app (l1 l2 u1 u2 : list double) (v1 v2 : list Q) :
  length l1 = length v1 → length u1 = length v1 →
  within (l1 ++ l2) (u1 ++ u2) (v1 ++ v2) ↔ within l1 u1 v1 ∧ within l2 u2 v2.
Proof.
  intros Hl Hu. unfold within. split.
  - intros [H1 H2].
    apply Forall2_app_inv in H1 as [? ?]; [|done].
    apply Forall2_app_inv in H2 as [? ?]; [|done]. done.
  - intros [[? ?] [? ?]]. split; by apply Forall2_app.
Qed.

Lemma within_upper (h v : list Q) :
  within (replicate (length v) (double_opp kHighsInf)) (map Fin h) v ↔ Forall2 Qle v h.
Proof.
  unfold within. split.
  - intros [_ H]. revert h H. induction v as [|y v IH]; intros [|x h] H;
      simpl in *; inversion H; subst; constructor; auto.
  - intros H. split.
    + clear H. induction v; simpl; constructor; done.
    + induction H; simpl; constructor; done.
Qed.

Lemma within_equal (b v : list Q) :
  within (map Fin b) (map Fin b) v ↔ Forall2 Qeq v b.
Proof.
  unfold within. split.
  - intros [H1 H2]. revert b H1 H2. induction v as [|y v IH]; intros [|x b] H1 H2;
      simpl in *; inversion H1; inversion H2; subst; constructor; auto.
    simpl in *. by apply Qle_antisym.
  - intros H. split; induction H as [|y x v b Hxy H IH]; simpl; constructor;
      simpl; try done; rewrite Hxy; apply Qle_refl.
Qed.

Lemma above_lower (l x : list Q) :
  Forall2 (λ li vi, double_le li (Fin vi)) (map Fin l) x ↔ Forall2 Qle l x.
Proof.
  revert x. induction l as [|a l IH]; intros [|y x]; simpl;
    split; intros H; inversion H; subst; constructor; try done; by apply IH.
Qed.

Lemma below_upper (u x : list Q) :
  Forall2 (λ vi ui, double_le (Fin vi) ui) x (map Fin u) ↔ Forall2 Qle x u.
Proof.
  revert x. induction u as [|a u IH]; intros [|y x]; simpl;
    split; intros H; inversion H; subst; constructor; try done; by apply IH.
Qed.

Lemma above_neg_inf (x : list Q) :
  Forall2 (λ li vi, double_le li (Fin vi))
    (replicate (length x) (double_opp kHighsInf)) x.
Proof. induction x; simpl; constructor; done. Qed.

Lemma below_pos_inf (x : list Q) :
  Forall2 (λ vi ui, double_le (Fin vi) ui) x (replicate (length x) kHighsInf).
Proof. induction x; simpl; constructor; done. Qed.

Lemma within_nil : within [] [] [].
Proof. split; constructor. Qed.

Lemma matvec_app (G A : list (list Q)) (x : list Q) :
  np.matvec (G ++ A) x = np.matvec G x ++ np.matvec A x.
Proof. unfold np.matvec. apply map_app. Qed.

End doubles.

Section highs_properties.

Local Open Scope Q_scope.

Variable highs : highspy.api.
Variable indptr indices : np.csc_matrix → list nat.
Variable data : np.csc_matrix → list Q.

Local Abbreviation model_of := (highs_model highs indptr indices data).
Local Abbreviation solve_with := (highs_solve_qp highs indptr indices data).

(** X14: when G comes with h and A with b, on the same n columns, the
    model is built, with one row for each row of G and of A; its matrix is
    G stacked on A, and a point satisfies the row bounds of the model
    exactly when it satisfies [G x <= h] and [A x = b].  Without G and A the
    rows of the new model are left as they are. *)
Theorem highs_model_rows (P : np.csc_matrix) (q : list Q)
    (G : option np.csc_matrix) (h : option (list Q))
    (A : option np.csc_matrix) (b lb ub : option (list Q)) (n : nat) :
  paired n G h → paired n A b →
  ∃ model,
    model_of P q G h A b lb ub = Ok model
    ∧ let lp := HighsModel.lp_ model in
      let new := HighsModel.lp_ (highspy.HighsModel_new highs) in
      let rows := rows_of_csc G ++ rows_of_csc A in
      HighsLp.num_row_ lp = length rows
      ∧ (is_Some G ∨ is_Some A →
         HighsLp.a_matrix_ lp
         = HighsSparseMatrix.Build kColwise (indptr (np.Csc n rows))
             (indices (np.Csc n rows)) (data (np.Csc n rows)) (length rows) n
         ∧ length (HighsLp.row_lower_ lp) = length rows
         ∧ length (HighsLp.row_upper_ lp) = length rows
         ∧ ∀ x, within (HighsLp.row_lower_ lp) (HighsLp.row_upper_ lp)
                  (np.matvec rows x)
                ↔ qp.ineq (rows_of_csc G) (entries_of h) x
                  ∧ qp.eq (rows_of_csc A) (entries_of b) x)
      ∧ (G = None → A = None →
         HighsLp.a_matrix_ lp = HighsLp.a_matrix_ new
         ∧ HighsLp.row_lower_ lp = HighsLp.row_lower_ new
         ∧ HighsLp.row_upper_ lp = HighsLp.row_upper_ new).
Proof.
  intros HG HA. unfold highs_model, __set_rows, row_lists.
  destruct G as [[c G]|], h as [h|]; simpl in HG; try done;
    destruct A as [[d A]|], b as [b|]; simpl in HA; try done; simpl.
  - destruct HG as [-> HG], HA as [-> HA]. rewrite Nat.eqb_refl. simpl.
    eexists. split; [done|]. simpl. rewrite !app_nil_r, length_app.
    split; [done|]. split; [|done]. intros _.
    split; [done|].
    rewrite !length_app, !length_replicate, !length_map.
    split; [lia|]. split; [lia|].
    intros x. rewrite matvec_app.
    rewrite within_app
      by (rewrite ?length_replicate, ?length_map, length_matvec; lia).
    pose proof (within_upper h (np.matvec G x)) as Hupper.
    rewrite length_matvec in Hupper.
    change (double_opp kHighsInf) with NegInf in Hupper.
    rewrite Hupper, within_equal. done.
  - destruct HG as [-> HG]. eexists. split; [done|]. simpl.
    rewrite !app_nil_r. split; [done|]. split; [|done]. intros _.
    split; [done|]. rewrite length_replicate, length_map.
    split; [done|]. split; [lia|].
    intros x. pose proof (within_upper h (np.matvec G x)) as Hupper.
    rewrite length_matvec in Hupper.
    change (double_opp kHighsInf) with NegInf in Hupper.
    rewrite Hupper.
    unfold qp.eq. simpl. split; [by split|by intros [? _]].
  - destruct HA as [-> HA]. eexists. split; [done|]. simpl. rewrite !app_nil_r.
    split; [done|]. split; [|done]. intros _.
    split; [done|]. rewrite length_map.
    split; [lia|]. split; [lia|].
    intros x. rewrite within_equal.
    unfold qp.ineq. simpl. split; [by split|by intros [_ ?]].
  - eexists. split; [done|]. simpl. split; [done|].
    split; [by intros [[? [=]]|[? [=]]]|done].
Qed.

(** X15: whenever the model is built, its Hessian is the storage of P, its
    cost vector is q, and a point of the length of q is within the column
    bounds of the model exactly when it is above lb and below ub, for
    those of the two that are given: setting the rows leaves the columns
    and the Hessian as they were set. *)
Theorem highs_model_columns (P : np.csc_matrix) (q : list Q)
    (G : option np.csc_matrix) (h : option (list Q))
    (A : option np.csc_matrix) (b lb ub : option (list Q))
    (model : HighsModel.t) :
  model_of P q G h A b lb ub = Ok model →
  let lp := HighsModel.lp_ model in
  HighsModel.hessian_ model
  = HighsHessian.Build (csc_shape0 P) (indptr P) (indices P) (data P)
  ∧ HighsLp.num_col_ lp = length q
  ∧ HighsLp.col_cost_ lp = q
  ∧ ∀ x, length x = length q →
      within (HighsLp.col_lower_ lp) (HighsLp.col_upper_ lp) x
      ↔ (∀ l, lb = Some l → Forall2 Qle l x) ∧ (∀ u, ub = Some u → Forall2 Qle x u).
Proof.
  unfold highs_model, __set_rows.
  destruct (row_lists G h A b) as [[[num_row row_list] row_lower] row_upper].
  assert (∀ x, length x = length q →
            within
              match lb with
              | Some lb => map Fin lb
              | None => replicate (length q) (double_opp kHighsInf)
              end
              match ub with
              | Some ub => map Fin ub
              | None => replicate (length q) kHighsInf
              end x
            ↔ (∀ l, lb = Some l → Forall2 Qle l x)
              ∧ (∀ u, ub = Some u → Forall2 Qle x u)) as Hcols.
  { intros x Hx. unfold within.
    pose proof (λ l, above_lower l x) as Hlow.
    pose proof (λ u, below_upper u x) as Hup.
    pose proof (above_neg_inf x) as Hninf.
    pose proof (below_pos_inf x) as Hpinf.
    rewrite Hx in Hninf, Hpinf.
    destruct lb as [l|], ub as [u|]; rewrite ?Hlow, ?Hup.
    - split; [intros [? ?]; split; by intros ? [= <-]|intros [H1 H2]; auto].
    - split; [intros [? ?]; split; [by intros ? [= <-]|done]|intros [H1 H2]; auto].
    - split; [intros [? ?]; split; [done|by intros ? [= <-]]|intros [H1 H2]; auto].
    - split; [done|by intros _]. }
  destruct row_list as [|B row_list]; cbv beta iota.
  - intros [= <-]. do 3 (split; [done|]). exact Hcols.
  - destruct (csc_vstack (B :: row_list)) as [row_matrix|e]; simpl; [|done].
    destruct (hstack_doubles row_lower) as [lower|e]; simpl; [|done].
    destruct (hstack_doubles row_upper) as [upper|e]; simpl; [|done].
    intros [= <-]. do 3 (split; [done|]). exact Hcols.
Qed.

(** ** HiGHS: the call of the solver *)

(** X16: an inequality vector given without its matrix, and an equality
    vector given without its matrix, are ignored: the call does what it does
    without them. *)
Theorem highs_solve_qp_unpaired (P : pyarr) (q : list Q) (G A : option pyarr)
    (h b h' b' lb ub initvals : option (list Q)) (verbose : bool)
    (kwargs : list (string * pyval)) :
  solve_with P q None h A b lb ub initvals verbose kwargs
  = solve_with P q None h' A b lb ub initvals verbose kwargs
  ∧ solve_with P q G h None b lb ub initvals verbose kwargs
    = solve_with P q G h None b' lb ub initvals verbose kwargs.
Proof.
  split.
  - reflexivity.
  - unfold highs_solve_qp, highs_model, __set_rows, row_lists.
    by destruct G as [G|].
Qed.

(** X17: warm-start values are not used: the result of the call is the
    same with and without them, and they only add the warning about warm
    starts; a conversion is reported for each of P, G and A that is given as
    an ndarray, and for nothing else. *)
Theorem highs_solve_qp_initvals (P : pyarr) (q : list Q) (G : option pyarr)
    (h : option (list Q)) (A : option pyarr) (b lb ub initvals : option (list Q))
    (verbose : bool) (kwargs : list (string * pyval)) :
  let out := solve_with P q G h A b lb ub initvals verbose kwargs in
  out.2 = (solve_with P q G h A b lb ub None verbose kwargs).2
  ∧ (WarmStartUnavailable ∈ out.1 ↔ is_Some initvals)
  ∧ ∀ name, SparseConversion name ∈ out.1
            ↔ (name = "P"%string ∧ is_ndarray P = true)
              ∨ (name = "G"%string ∧ ∃ a, G = Some (Nd a))
              ∨ (name = "A"%string ∧ ∃ a, A = Some (Nd a)).
Proof.
  unfold highs_solve_qp. cbn [fst snd]. split; [done|]. split.
  - rewrite !elem_of_app.
    destruct initvals as [v|].
    + split; [by eexists|]. intros _. do 3 right. by apply list_elem_of_singleton.
    + split; [|by intros [? [=]]].
      intros [H|[H|[H|H]]]; [| | |by apply elem_of_nil in H].
      * destruct P as [a|s]; simpl in H;
          [by apply list_elem_of_singleton in H|by apply elem_of_nil in H].
      * destruct G as [[a|s]|]; simpl in H;
          [by apply list_elem_of_singleton in H|by apply elem_of_nil in H
          |by apply elem_of_nil in H].
      * destruct A as [[a|s]|]; simpl in H;
          [by apply list_elem_of_singleton in H|by apply elem_of_nil in H
          |by apply elem_of_nil in H].
  - intros name. rewrite !elem_of_app.
    assert (∀ (x : string) (a : option pyarr),
              SparseConversion name ∈ conversion x a
              ↔ name = x ∧ ∃ d, a = Some (Nd d)) as Hconv.
    { intros x [[d|s]|]; simpl.
      - rewrite list_elem_of_singleton. split.
        + intros [= ->]. split; [done|by eexists].
        + by intros [-> _].
      - split; [by intros ?%elem_of_nil|by intros [_ [? [=]]]].
      - split; [by intros ?%elem_of_nil|by intros [_ [? [=]]]]. }
    rewrite !Hconv.
    assert (SparseConversion name ∈
              (if initvals is Some _ then [WarmStartUnavailable] else []) ↔ False)
      as ->.
    { destruct initvals; split; try done.
      - by intros [=]%list_elem_of_singleton.
      - by intros ?%elem_of_nil. }
    assert ((∃ d, Some P = Some (Nd d)) ↔ is_ndarray P = true) as ->.
    { destruct P; simpl; split; try done; [by eexists|by intros [? [=]]]. }
    tauto.
Qed.

(** X18: a call that returns has built the model, passed it to a solver and
    run that solver; it returns the column values of the solution when the
    status of the model is [kOptimal], and [None] for every other status. *)
Theorem highs_solve_qp_result (P : pyarr) (q : list Q) (G : option pyarr)
    (h : option (list Q)) (A : option pyarr) (b lb ub initvals : option (list Q))
    (verbose : bool) (kwargs : list (string * pyval)) (r : option (list Q)) :
  (solve_with P q G h A b lb ub initvals verbose kwargs).2 = Ok r →
  ∃ model s0 s1 s2,
    model_of (to_csc P) q (to_csc <$> G) h (to_csc <$> A) b lb ub = Ok model
    ∧ highspy.passModel highs s0 model = Ok s1
    ∧ highspy.run highs s1 = Ok s2
    ∧ r = if Z.eqb (highspy.getModelStatus highs s2) (highspy.kOptimal highs)
          then Some (highspy.col_value highs s2)
          else None.
Proof.
  unfold highs_solve_qp. simpl.
  destruct (model_of _ _ _ _ _ _ _ _) as [model|e]; simpl; [|done].
  match goal with
  | |- context [(if verbose then ?m1 else ?m2) ≫= _] =>
      destruct (if verbose then m1 else m2) as [s|e]; simpl; [|done]
  end.
  destruct (set_options highs s kwargs) as [s0|e]; simpl; [|done].
  destruct (highspy.passModel highs s0 model) as [s1|e] eqn:Hpass; simpl; [|done].
  destruct (highspy.run highs s1) as [s2|e] eqn:Hrun; simpl; [|done].
  intros Hr. exists model, s0, s1, s2. split; [done|]. split; [done|].
  split; [done|].
  destruct (Z.eqb _ _); simpl in Hr; by injection Hr as <-.
Qed.

(** X19: when G and A are both given and differ in their number of columns,
    the call raises ValueError, whatever highspy does: no model is passed to
    a solver. *)
Theorem highs_solve_qp_column_mismatch (P : pyarr) (q : list Q) (G A : pyarr)
    (h b lb ub initvals : option (list Q)) (verbose : bool)
    (kwargs : list (string * pyval)) :
  csc_shape1 (to_csc G) ≠ csc_shape1 (to_csc A) →
  (solve_with P q (Some G) h (Some A) b lb ub initvals verbose kwargs).2
  = Raise ValueError.
Proof.
  intros Hne. unfold highs_solve_qp, highs_model, __set_rows, row_lists. simpl.
  by destruct (Nat.eqb_spec (csc_shape1 (to_csc G)) (csc_shape1 (to_csc A))).
Qed.

End highs_properties.

(** The example has one inequality row and one equality row on two
    variables. *)
Lemma highs_model_rows_witness :
  ∃ model,
    highs_model exh.api exh.indptr exh.indices exh.data (to_csc exh.P) exh.q
      (Some (to_csc exh.G)) (Some exh.h) (Some (to_csc exh.A)) (Some exh.b)
      None None = Ok model
    ∧ HighsLp.num_row_ (HighsModel.lp_ model) = 2
    ∧ HighsLp.row_lower_ (HighsModel.lp_ model) = [NegInf; Fin 0]
    ∧ HighsLp.row_upper_ (HighsModel.lp_ model) = [Fin 4; Fin 0]
    ∧ ∀ x, within (HighsLp.row_lower_ (HighsModel.lp_ model))
             (HighsLp.row_upper_ (HighsModel.lp_ model))
             (np.matvec [[1; 1]; [1; -1]]%Q x)
           ↔ qp.ineq [[1; 1]]%Q exh.h x ∧ qp.eq [[1; -1]]%Q exh.b x.
Proof.
  destruct (highs_model_rows exh.api exh.indptr exh.indices exh.data (to_csc exh.P)
              exh.q (Some (to_csc exh.G)) (Some exh.h) (Some (to_csc exh.A))
              (Some exh.b) None None 2)
    as (model & Hmodel & Hnum & Hrows & _).
  - split; reflexivity.
  - split; reflexivity.
  - exists model. split; [exact Hmodel|]. split; [exact Hnum|].
    destruct (Hrows (or_introl (mk_is_Some _ _ eq_refl))) as (_ & _ & _ & Hwithin).
    injection Hmodel as <-. split; [reflexivity|]. split; [reflexivity|].
    exact Hwithin.
Defined.

(** With a lower bound and no upper bound, the column bounds of the example
    are the bound and plus infinity. *)
Lemma highs_model_columns_witness :
  ∃ model,
    highs_model exh.api exh.indptr exh.indices exh.data (to_csc exh.P) exh.q
      (Some (to_csc exh.G)) (Some exh.h) None None (Some [0; 0]%Q) None = Ok model
    ∧ HighsLp.num_col_ (HighsModel.lp_ model) = 2
    ∧ HighsLp.col_lower_ (HighsModel.lp_ model) = [Fin 0; Fin 0]
    ∧ HighsLp.col_upper_ (HighsModel.lp_ model) = [PosInf; PosInf]
    ∧ HighsHessian.value_ (HighsModel.hessian_ model) = [2; 0; 0; 2]%Q
    ∧ (within (HighsLp.col_lower_ (HighsModel.lp_ model))
         (HighsLp.col_upper_ (HighsModel.lp_ model)) [1; 5]%Q
       ↔ (∀ l, Some [0; 0]%Q = Some l → Forall2 Qle l [1; 5]%Q)
         ∧ (∀ u, @None (list Q) = Some u → Forall2 Qle [1; 5]%Q u)).
Proof.
  eexists. split; [vm_compute; reflexivity|].
  split; [reflexivity|]. split; [reflexivity|]. split; [reflexivity|].
  split; [reflexivity|].
  refine (proj2 (proj2 (proj2
            (highs_model_columns exh.api exh.indptr exh.indices exh.data
               (to_csc exh.P) exh.q (Some (to_csc exh.G)) (Some exh.h) None None
               (Some [0; 0]%Q) None _ _))) [1; 5]%Q _).
  - vm_compute. reflexivity.
  - reflexivity.
Defined.

(** The example solver reports [kOptimal] and the cost vector. *)
Lemma highs_solve_qp_result_witness :
  ∃ model s0 s1 s2,
    highs_model exh.api exh.indptr exh.indices exh.data (to_csc exh.P) exh.q
      (to_csc <$> Some exh.G) (Some exh.h) (to_csc <$> Some exh.A) (Some exh.b)
      None None = Ok model
    ∧ highspy.passModel exh.api s0 model = Ok s1
    ∧ highspy.run exh.api s1 = Ok s2
    ∧ Some exh.q
      = if Z.eqb (highspy.getModelStatus exh.api s2) (highspy.kOptimal exh.api)
        then Some (highspy.col_value exh.api s2)
        else None.
Proof.
  apply (highs_solve_qp_result exh.api exh.indptr exh.indices exh.data exh.P exh.q
           (Some exh.G) (Some exh.h) (Some exh.A) (Some exh.b) None None None false
           [("time_limit"%string, VNum 10)]).
  vm_compute. reflexivity.
Defined.

(** A status other than [kOptimal] gives [None]. *)
Example highs_solve_qp_not_optimal :
  highs_solve_qp (exh.api_with 8) exh.indptr exh.indices exh.data exh.P exh.q
    (Some exh.G) (Some exh.h) (Some exh.A) (Some exh.b) None None (Some exh.q) false []
  = ([SparseConversion "P"; SparseConversion "G"; WarmStartUnavailable], Ok None).
Proof. vm_compute. reflexivity. Qed.

(** An inequality matrix with three columns and an equality matrix with
    two. *)
Lemma highs_solve_qp_column_mismatch_witness :
  (highs_solve_qp exh.api exh.indptr exh.indices exh.data exh.P exh.q
     (Some (Nd (np.Arr2 3 [[1; 1; 1]]%Q))) (Some exh.h) (Some exh.A) (Some exh.b)
     None None None false []).2
  = Raise ValueError.
Proof.
  apply (highs_solve_qp_column_mismatch exh.api exh.indptr exh.indices exh.data).
  vm_compute. lia.
Defined.

(** * Normalization with the helpers of the specification *)

Section helpers_run.

Local Open Scope Q_scope.

Lemma check_pair_run (mat vec : option obj) (σ : heap) :
  check_pair mat vec σ
  = (σ, if rows_agree σ mat vec then Ok tt else Raise ValueError).
Proof.
  unfold check_pair, rows_agree. destruct mat as [m|], vec as [v|]; try done.
  munfold. by destruct (Nat.eqb _ _).
Qed.

Lemma check_problem_constraints_run (G h A b : option obj) (σ : heap) :
  check_problem_constraints G h A b σ
  = (σ, if rows_agree σ G h && rows_agree σ A b then Ok tt else Raise ValueError).
Proof.
  unfold check_problem_constraints. rewrite run_bind, !check_pair_run.
  by destruct (rows_agree σ G h), (rows_agree σ A b).
Qed.

(** One bound appended: two new arrays, G with the rows [sign * I] and h
    with the entries [sign * bound]. *)
Lemma append_bound_run (G h : option obj) (sign : Q) (bound : obj) (σ : heap)
    (bv : list Q) (rows : list (list Q)) (hv : list Q) :
  load σ bound = Nd (np.Arr1 bv) →
  dense_rows σ (length bv) G rows →
  flat_entries σ h hv →
  append_bound G h sign bound σ
  = (σ ++ [Nd (np.Arr2 (length bv)
                 (rows ++ bound_rows sign (length bv) (Some bound)));
           Nd (np.Arr1 (hv ++ map (Qmult sign) bv))],
     Ok (Some (Obj (length σ) []), Some (Obj (length σ + 1) []))).
Proof.
  intros Hb HG Hh. unfold append_bound.
  rewrite run_bind, run_get, Hb, run_bind, run_lift. simpl.
  rewrite run_bind.
  assert (match G with
          | Some G0 => Gv ← get G0; a ← lift (dense Gv);
                       s ← lift (np.vstack a
                                   (np.Arr2 (length bv)
                                      (map (map (Qmult sign))
                                         (np.tab (length bv) (length bv)
                                            (λ i j, if Nat.eqb i j then 1 else 0)))));
                       new (Nd s)
          | None => new (Nd (np.Arr2 (length bv)
                               (map (map (Qmult sign))
                                  (np.tab (length bv) (length bv)
                                     (λ i j, if Nat.eqb i j then 1 else 0)))))
          end σ
          = (σ ++ [Nd (np.Arr2 (length bv)
                         (rows ++ bound_rows sign (length bv) (Some bound)))],
             Ok (Obj (length σ) []))) as ->.
  { destruct G as [g|]; simpl in HG.
    - rewrite run_bind, run_get, HG, run_bind, run_lift. simpl.
      rewrite run_bind, run_lift. unfold np.vstack. simpl.
      by rewrite Nat.eqb_refl, run_new.
    - subst rows. by rewrite run_new. }
  rewrite run_bind.
  assert (match h with
          | Some h0 => hv0 ← get h0; a ← lift (dense hv0);
                       s ← lift (np.hstack a (np.Arr1 (map (Qmult sign) bv)));
                       new (Nd s)
          | None => new (Nd (np.Arr1 (map (Qmult sign) bv)))
          end (σ ++ [Nd (np.Arr2 (length bv)
                           (rows ++ bound_rows sign (length bv) (Some bound)))])
          = ((σ ++ [Nd (np.Arr2 (length bv)
                          (rows ++ bound_rows sign (length bv) (Some bound)))])
             ++ [Nd (np.Arr1 (hv ++ map (Qmult sign) bv))],
             Ok (Obj (length σ + 1) []))) as ->.
  { destruct h as [ho|]; simpl in Hh.
    - destruct Hh as [Hvalid Hh].
      rewrite run_bind, run_get, (load_prefix σ) by (done || by apply prefix_app_r).
      rewrite Hh, run_bind, run_lift. simpl.
      by rewrite run_bind, run_lift, run_new, length_app.
    - subst hv. rewrite run_new, length_app. done. }
  rewrite run_ret, <- app_assoc. done.
Qed.

(** Both bounds folded, or one of them, or none. *)
Lemma concatenate_bounds_run (G h lb ub : option obj) (σ : heap) (n : nat)
    (rows : list (list Q)) (hv : list Q) :
  dense_rows σ n G rows → flat_entries σ h hv →
  flat_bound σ n lb → flat_bound σ n ub →
  ∃ σ2 r,
    concatenate_bounds G h lb ub σ = (σ2, Ok r)
    ∧ σ `prefix_of` σ2
    ∧ match lb, ub with
      | None, None => σ2 = σ ∧ r = (G, h)
      | _, _ =>
          ∃ G2 h2, r = (Some G2, Some h2)
                   ∧ length σ ≤ base G2 ∧ length σ ≤ base h2
                   ∧ load σ2 G2
                     = Nd (np.Arr2 n (rows ++ bound_rows (-1) n lb ++ bound_rows 1 n ub))
                   ∧ load σ2 h2
                     = Nd (np.Arr1 (hv ++ bound_entries σ (-1) lb
                                    ++ bound_entries σ 1 ub))
      end.
Proof.
  intros HG Hh Hlb Hub. unfold concatenate_bounds. rewrite run_bind.
  destruct lb as [lbo|], ub as [ubo|]; simpl in Hlb, Hub.
  - destruct Hlb as (Hlbv & lbv & Hlb & <-), Hub as (Hubv & ubv & Hub & Hn).
    rewrite (append_bound_run G h _ lbo σ lbv rows hv) by done. simpl.
    set (σ1 := σ ++ _).
    assert (σ `prefix_of` σ1) as Hpre by (by apply prefix_app_r).
    rewrite (append_bound_run _ _ _ ubo σ1 ubv
               (rows ++ bound_rows (-1) (length lbv) (Some lbo))
               (hv ++ map (Qmult (-1)) lbv)).
    + do 2 eexists. split; [reflexivity|].
      split; [etrans; [done|by apply prefix_app_r]|].
      do 2 eexists. split; [reflexivity|]. cbn [base].
      assert (length σ ≤ length σ1) as Hlen by (by apply prefix_length).
      split; [lia|]. split; [lia|].
      rewrite load_app_first, (load_app_at σ1 _ 1).
      unfold bound_rows, bound_entries. rewrite Hlb, Hub, Hn, <- !app_assoc. done.
    + by rewrite (load_prefix σ σ1).
    + simpl. rewrite Hn. unfold σ1. by rewrite load_app_first.
    + simpl. unfold σ1. split; [rewrite length_app; simpl; lia|].
      rewrite (load_app_at σ _ 1). done.
  - destruct Hlb as (Hlbv & lbv & Hlb & <-).
    rewrite (append_bound_run G h _ lbo σ lbv rows hv) by done. simpl.
    rewrite run_ret.
    do 2 eexists. split; [reflexivity|]. split; [by apply prefix_app_r|].
    do 2 eexists. split; [reflexivity|]. cbn [base]. split; [lia|]. split; [lia|].
    rewrite load_app_first, (load_app_at σ _ 1).
    unfold bound_rows, bound_entries. rewrite Hlb, !app_nil_r. done.
  - destruct Hub as (Hubv & ubv & Hub & <-). rewrite run_ret. simpl.
    rewrite (append_bound_run G h _ ubo σ ubv rows hv) by done.
    do 2 eexists. split; [reflexivity|]. split; [by apply prefix_app_r|].
    do 2 eexists. split; [reflexivity|]. cbn [base]. split; [lia|]. split; [lia|].
    rewrite load_app_first, (load_app_at σ _ 1).
    unfold bound_rows, bound_entries. rewrite Hub. done.
  - rewrite !run_ret. by do 2 eexists.
Qed.

End helpers_run.

Section order.

Local Open Scope Q_scope.

Lemma reshaped_promoted (σ : heap) (A : option obj) : promoted σ A (reshaped σ A).
Proof.
  destruct A as [o|]; [|done]. unfold promoted.
  destruct (load σ o) as [[v|c rows]|s] eqn:Ho.
  - by apply reshaped_flat.
  - apply reshaped_other. by rewrite Ho.
  - apply reshaped_other. by rewrite Ho.
Qed.

(** The steps before the lookup, with the helpers of the specification. *)
Lemma normalize_run (P : obj) (G h A b lb ub initvals : option obj)
    (sym_proj verbose : bool) (kwargs : gmap string pyval) (σ : heap) :
  normalize check_problem_constraints concatenate_bounds P G h A b lb ub initvals
    sym_proj verbose kwargs σ
  = match sym_proj_step sym_proj P σ with
    | (σ1, Raise e) => (σ1, Raise e)
    | (σ1, Ok P1) =>
        if rows_agree σ1 (reshaped σ1 G) h && rows_agree σ1 (reshaped σ1 A) b
        then match concatenate_bounds (reshaped σ1 G) h lb ub σ1 with
             | (σ2, Ok (G2, h2)) =>
                 (σ2, Ok (P1, G2, h2, reshaped σ1 A,
                          <["verbose" := VBool verbose]>
                            (<["initvals" := of_option initvals]> kwargs)))
             | (σ2, Raise e) => (σ2, Raise e)
             end
        else (σ1, Raise ValueError)
    end.
Proof.
  unfold normalize. rewrite run_bind.
  destruct (sym_proj_step sym_proj P σ) as [σ1 [P1|e]]; [|done].
  rewrite run_bind, reshape_step_run, run_bind, reshape_step_run, run_bind.
  rewrite check_problem_constraints_run.
  destruct (rows_agree σ1 (reshaped σ1 G) h && rows_agree σ1 (reshaped σ1 A) b);
    [|done].
  rewrite run_bind.
  by destruct (concatenate_bounds _ _ _ _ σ1) as [σ2 [[G2 h2]|e]].
Qed.

(** C4: the order of [solve_qp], with the checks and the folding of the
    specification.  (1) Symmetrization comes first: when P does not combine
    with its transpose the call ends with ValueError in the heap it was
    called in; otherwise, with [sym_proj], the cost matrix that goes on is
    a new array, which for a square P has the entries
    (P[i][j] + P[j][i]) / 2.  (2) A flat A or G goes on as its 1-by-n view.
    (3) The pairs (G, h) and (A, b) are then checked on the arrays so
    promoted: unless both are given together, or not at all, with as many
    rows as entries, the call ends with ValueError before anything is
    folded or looked up.  (4) The bounds are then folded into the promoted
    G and h: without bounds the pair goes on as it is, and with flat bounds
    on dense arrays it is replaced by new arrays that hold G followed by the
    rows -I and I, and h followed by -lb and ub.  Only then is the solver
    looked up, and it is called on the arrays so obtained. *)
Theorem solve_qp_order (solve_function : gmap string adapter) (P q : obj)
    (G h A b lb ub : option obj) (solver : string) (initvals : option obj)
    (sym_proj verbose : bool) (kwargs : gmap string pyval) (σ : heap) :
  let run := solve_qp check_problem_constraints concatenate_bounds solve_function
               P q G h A b lb ub solver initvals sym_proj verbose kwargs σ in
  (sym_proj = true → transpose_mismatch (load σ P) → run = (σ, Raise ValueError))
  ∧ (¬ (sym_proj = true ∧ transpose_mismatch (load σ P)) →
     ∃ (σ1 : heap) (P1 : obj) (A1 G1 : option obj),
       (if sym_proj
        then ∃ S, σ1 = σ ++ [S] ∧ P1 = Obj (length σ) []
                  ∧ ∀ n, qp.square (load σ P) n →
                      qp.square S n
                      ∧ ∀ i j, (i < n)%nat → (j < n)%nat →
                          np.entry (rows_of S) i j
                          == (1 # 2) * (np.entry (rows_of (load σ P)) i j
                                        + np.entry (rows_of (load σ P)) j i)
        else σ1 = σ ∧ P1 = P)
       ∧ promoted σ1 A A1 ∧ promoted σ1 G G1
       ∧ (rows_agree σ1 G1 h && rows_agree σ1 A1 b = false →
          run = (σ1, Raise ValueError))
       ∧ (rows_agree σ1 G1 h && rows_agree σ1 A1 b = true →
          ∃ σ2 r,
            concatenate_bounds G1 h lb ub σ1 = (σ2, r)
            ∧ (lb = None → ub = None → σ2 = σ1 ∧ r = Ok (G1, h))
            ∧ (∀ n rows hv,
                 is_Some lb ∨ is_Some ub →
                 dense_rows σ1 n G1 rows → flat_entries σ1 h hv →
                 flat_bound σ1 n lb → flat_bound σ1 n ub →
                 ∃ G2 h2,
                   r = Ok (Some G2, Some h2)
                   ∧ (length σ1 ≤ base G2)%nat ∧ (length σ1 ≤ base h2)%nat
                   ∧ load σ2 G2
                     = Nd (np.Arr2 n (rows ++ bound_rows (-1) n lb
                                      ++ bound_rows 1 n ub))
                   ∧ load σ2 h2
                     = Nd (np.Arr1 (hv ++ bound_entries σ1 (-1) lb
                                    ++ bound_entries σ1 1 ub)))
            ∧ match r with
              | Raise e => run = (σ2, Raise e)
              | Ok (G2, h2) =>
                  run = match solve_function !! solver with
                        | None => (σ2, Raise (SolverNotFound solver))
                        | Some f =>
                            match f P1 q G2 h2 A1 b
                                    (<["verbose" := VBool verbose]>
                                       (<["initvals" := of_option initvals]> kwargs))
                                    σ2 with
                            | (σ3, Raise KeyError) =>
                                (σ3, Raise (SolverNotFound solver))
                            | out => out
                            end
                        end
              end)).
Proof.
  intros run. unfold run. rewrite solve_qp_run, normalize_run, sym_proj_step_run.
  split.
  { intros -> Hmis.
    by rewrite (proj2 (half_sum_transpose_Raise (load σ P) ValueError)). }
  intros Hok.
  assert (∃ σ1 P1,
            (if sym_proj
             then match half_sum_transpose (load σ P) with
                  | Ok s => (σ ++ [s], Ok (Obj (length σ) []))
                  | Raise e => (σ, Raise e)
                  end
             else (σ, Ok P)) = (σ1, Ok P1)
            ∧ if sym_proj
              then ∃ S, σ1 = σ ++ [S] ∧ P1 = Obj (length σ) []
                        ∧ ∀ n, qp.square (load σ P) n →
                            qp.square S n
                            ∧ ∀ i j, (i < n)%nat → (j < n)%nat →
                                np.entry (rows_of S) i j
                                == (1 # 2) * (np.entry (rows_of (load σ P)) i j
                                              + np.entry (rows_of (load σ P)) j i)
              else σ1 = σ ∧ P1 = P) as (σ1 & P1 & -> & Hsym).
  { destruct sym_proj; [|by do 2 eexists].
    destruct (half_sum_transpose (load σ P)) as [S|e] eqn:HS.
    - do 2 eexists. split; [done|]. exists S. split; [done|]. split; [done|].
      intros n Hsq.
      destruct (half_sum_transpose_square _ n Hsq) as (S' & HS' & Hsq' & Hrows).
      rewrite HS in HS'. injection HS' as <-. split; [done|].
      intros i j Hi Hj. rewrite Hrows. by rewrite entry_tab.
    - apply half_sum_transpose_Raise in HS as [_ Hmis]. by destruct Hok. }
  exists σ1, P1, (reshaped σ1 A), (reshaped σ1 G).
  split; [done|]. split; [apply reshaped_promoted|]. split; [apply reshaped_promoted|].
  split; [by intros ->|]. intros ->.
  destruct (concatenate_bounds (reshaped σ1 G) h lb ub σ1) as [σ2 r] eqn:Hfold.
  exists σ2, r. split; [done|]. split.
  { intros -> ->. unfold concatenate_bounds in Hfold.
    rewrite run_bind, !run_ret in Hfold. by injection Hfold as <- <-. }
  split.
  { intros n rows hv Hb HG Hh Hlb Hub.
    destruct (concatenate_bounds_run (reshaped σ1 G) h lb ub σ1 n rows hv HG Hh Hlb Hub)
      as (σ2' & r' & Hrun & _ & Hcases).
    rewrite Hfold in Hrun. injection Hrun as -> ->.
    destruct lb as [lbo|], ub as [ubo|];
      [| | |by destruct Hb as [[? [=]]|[? [=]]]];
      destruct Hcases as (G2 & h2 & -> & Hnew); by exists G2, h2. }
  by destruct r as [[G2 h2]|e].
Qed.

End order.

(** The call of the example that symmetrizes P, promotes the flat row [a]
    and folds a lower bound: the cost matrix that goes on is a new array,
    the equality matrix is the row view of [a], and both pairs pass the
    check. *)
Lemma solve_qp_order_witness :
  ∃ (σ1 : heap) (P1 : obj) (A1 G1 : option obj),
    (∃ S, σ1 = ex.σ ++ [S] ∧ P1 = Obj (length ex.σ) [])
    ∧ promoted σ1 (Some ex.a) A1 ∧ promoted σ1 (Some ex.G) G1
    ∧ A1 = Some (as_row ex.a) ∧ G1 = Some ex.G
    ∧ rows_agree σ1 G1 (Some ex.h) && rows_agree σ1 A1 (Some ex.one) = true.
Proof.
  destruct (proj2 (solve_qp_order ex.solve_function ex.P ex.q (Some ex.G) (Some ex.h)
                     (Some ex.a) (Some ex.one) (Some ex.lb) None "quadprog" None
                     true false ∅ ex.σ))
    as (σ1 & P1 & A1 & G1 & Hsym & HA & HG & _).
  { intros [_ Hmis]. vm_compute in Hmis. lia. }
  cbv iota in Hsym. destruct Hsym as (S & -> & -> & _).
  exists (ex.σ ++ [S]), (Obj (length ex.σ) []), A1, G1.
  split; [by exists S|]. split; [exact HA|]. split; [exact HG|].
  assert (A1 = Some (as_row ex.a)) as -> by (vm_compute in HA; tauto).
  assert (G1 = Some ex.G) as -> by (vm_compute in HG; exact HG).
  split; [reflexivity|]. split; [reflexivity|]. reflexivity.
Defined.

(** ** What [solve_qp] itself does to the heap *)

Section frame.

(** A bound appended gives two arrays that did not exist before. *)
Lemma append_bound_new (G h : option obj) (sign : Q) (bound : obj) (σ σ' : heap)
    (r : option obj * option obj) :
  append_bound G h sign bound σ = (σ', Ok r) →
  ∃ g hh, r = (Some g, Some hh) ∧ length σ ≤ base g ∧ length σ ≤ base hh.
Proof.
  unfold append_bound. rewrite run_bind, run_get, run_bind, run_lift.
  destruct (dense (load σ bound)) as [bv|e]; cbv beta iota; [|done].
  rewrite run_bind.
  destruct G as [g|].
  - rewrite run_bind, run_get, run_bind, run_lift.
    destruct (dense (load σ g)) as [a|e]; cbv beta iota; [|done].
    rewrite run_bind, run_lift.
    destruct (np.vstack a _) as [s|e]; cbv beta iota; [|done].
    rewrite run_new, run_bind.
    destruct h as [ho|].
    + rewrite run_bind, run_get, run_bind, run_lift.
      destruct (dense _) as [c|e]; cbv beta iota; [|done].
      rewrite run_bind, run_lift.
      destruct (np.hstack c _) as [t|e]; cbv beta iota; [|done].
      rewrite run_new, run_ret. intros [= _ <-]. do 2 eexists. split; [done|].
      simpl. rewrite length_app. simpl. lia.
    + rewrite run_new, run_ret. intros [= _ <-]. do 2 eexists. split; [done|].
      simpl. rewrite length_app. simpl. lia.
  - rewrite run_new, run_bind.
    destruct h as [ho|].
    + rewrite run_bind, run_get, run_bind, run_lift.
      destruct (dense _) as [c|e]; cbv beta iota; [|done].
      rewrite run_bind, run_lift.
      destruct (np.hstack c _) as [t|e]; cbv beta iota; [|done].
      rewrite run_new, run_ret. intros [= _ <-]. do 2 eexists. split; [done|].
      simpl. rewrite length_app. simpl. lia.
    + rewrite run_new, run_ret. intros [= _ <-]. do 2 eexists. split; [done|].
      simpl. rewrite length_app. simpl. lia.
Qed.

Lemma concatenate_bounds_new (G h lb ub : option obj) (σ σ' : heap)
    (r : option obj * option obj) :
  concatenate_bounds G h lb ub σ = (σ', Ok r) →
  match lb, ub with
  | None, None => σ' = σ ∧ r = (G, h)
  | _, _ => ∃ g hh, r = (Some g, Some hh) ∧ length σ ≤ base g ∧ length σ ≤ base hh
  end.
Proof.
  unfold concatenate_bounds. rewrite run_bind.
  destruct lb as [lbo|].
  - destruct (append_bound G h (-1) lbo σ) as [σ1 [r1|e]] eqn:H1; [|by destruct ub].
    pose proof (append_bound_keeps G h (-1) lbo σ) as Hk. rewrite H1 in Hk. simpl in Hk.
    apply prefix_length in Hk.
    destruct ub as [ubo|].
    + intros H2. apply append_bound_new in H2 as (g & hh & -> & ? & ?).
      exists g, hh. split; [done|]. lia.
    + rewrite run_ret. intros [= <- <-]. by apply append_bound_new in H1.
  - rewrite run_ret. destruct ub as [ubo|].
    + simpl. apply append_bound_new.
    + rewrite run_ret. by intros [= <- <-].
Qed.

(** C9, as amended: [solve_qp] itself does not write.  Up to the lookup of
    the solver the heap is only extended, so that every array of the caller
    holds what it held, whether the steps before the lookup raise or not.
    The cost matrix that goes on is a new array when [sym_proj] is set and
    P itself otherwise; A goes on as it is or as a view of the same buffer;
    without bounds G and h go on likewise, and with a bound they are
    replaced by new arrays.  From then on the heap is what the adapter
    makes of it: [solve_qp] returns the heap that the adapter leaves, and
    after the call the caller's arrays hold what they held whenever the
    adapter does not write into existing arrays. *)
Theorem solve_qp_keeps_arrays (solve_function : gmap string adapter) (P q : obj)
    (G h A b lb ub : option obj) (solver : string) (initvals : option obj)
    (sym_proj verbose : bool) (kwargs : gmap string pyval) (σ : heap) :
  let run := solve_qp check_problem_constraints concatenate_bounds solve_function
               P q G h A b lb ub solver initvals sym_proj verbose kwargs σ in
  ∃ σ1 r,
    σ `prefix_of` σ1
    ∧ (∀ o, base o < length σ → load σ1 o = load σ o)
    ∧ match r with
      | Raise e => run = (σ1, Raise e)
      | Ok (P1, G2, h2, A1, kwargs') =>
          (if sym_proj then length σ ≤ base P1 else P1 = P)
          ∧ match A with
            | Some o => ∃ o', A1 = Some o' ∧ base o' = base o
            | None => A1 = None
            end
          ∧ match lb, ub with
            | None, None =>
                h2 = h
                ∧ match G with
                  | Some o => ∃ o', G2 = Some o' ∧ base o' = base o
                  | None => G2 = None
                  end
            | _, _ =>
                ∃ g hh, G2 = Some g ∧ h2 = Some hh
                        ∧ length σ ≤ base g ∧ length σ ≤ base hh
            end
          ∧ match solve_function !! solver with
            | None => run = (σ1, Raise (SolverNotFound solver))
            | Some f =>
                run = match f P1 q G2 h2 A1 b kwargs' σ1 with
                      | (σ2, Raise KeyError) => (σ2, Raise (SolverNotFound solver))
                      | out => out
                      end
                ∧ (keeps_heap (f P1 q G2 h2 A1 b kwargs') →
                   ∀ o, base o < length σ → load run.1 o = load σ o)
            end
      end.
Proof.
  intros run.
  pose proof (normalize_keeps check_problem_constraints concatenate_bounds
                check_problem_constraints_keeps concatenate_bounds_keeps
                P G h A b lb ub initvals sym_proj verbose kwargs σ) as Hkeeps.
  unfold run. rewrite solve_qp_run. rewrite normalize_run in *.
  rewrite sym_proj_step_run in *.
  assert (∀ τ (X : option obj),
            match X with
            | Some o => ∃ o', reshaped τ X = Some o' ∧ base o' = base o
            | None => reshaped τ X = None
            end) as Hview.
  { intros τ [o|]; [|done]. unfold reshaped.
    destruct (is_flat _); eexists; (split; [done|]); done. }
  destruct (if sym_proj
            then match half_sum_transpose (load σ P) with
                 | Ok s => (σ ++ [s], Ok (Obj (length σ) []))
                 | Raise e => (σ, Raise e)
                 end
            else (σ, Ok P)) as [σ1 [P1|e]] eqn:Hsym.
  2:{ exists σ1, (Raise e). simpl in Hkeeps. split; [done|].
      split; [intros o Ho; by apply load_prefix|done]. }
  assert (if sym_proj then length σ ≤ base P1 else P1 = P) as HP1.
  { destruct sym_proj; [|by injection Hsym].
    destruct (half_sum_transpose _); [|done]. by injection Hsym as <- <-. }
  assert (length σ ≤ length σ1) as Hlen.
  { destruct sym_proj; [|by injection Hsym as <- _].
    destruct (half_sum_transpose _); [|done]. injection Hsym as <- _.
    rewrite length_app. lia. }
  destruct (rows_agree σ1 (reshaped σ1 G) h && rows_agree σ1 (reshaped σ1 A) b).
  2:{ exists σ1, (Raise ValueError). simpl in Hkeeps. split; [done|].
      split; [intros o Ho; by apply load_prefix|done]. }
  destruct (concatenate_bounds (reshaped σ1 G) h lb ub σ1) as [σ2 [[G2 h2]|e]] eqn:Hfold.
  2:{ exists σ2, (Raise e). simpl in Hkeeps. split; [done|].
      split; [intros o Ho; by apply load_prefix|done]. }
  simpl in Hkeeps.
  exists σ2, (Ok (P1, G2, h2, reshaped σ1 A,
                  <["verbose" := VBool verbose]>
                    (<["initvals" := of_option initvals]> kwargs))).
  split; [done|]. split; [intros o Ho; by apply load_prefix|].
  split; [done|]. split; [apply Hview|]. split.
  { apply concatenate_bounds_new in Hfold.
    destruct lb as [lbo|], ub as [ubo|];
      try (destruct Hfold as (g & hh & [= -> ->] & ? & ?); exists g, hh;
           split; [done|]; split; [done|]; lia).
    destruct Hfold as [_ [= -> ->]]. split; [done|]. apply Hview. }
  unfold M in *. destruct (solve_function !! solver) as [f|]; [|done].
  split; [done|]. intros Hf o Ho.
  specialize (Hf σ2).
  destruct (f _ _ _ _ _ _ _ σ2) as [σ3 [x|e]]; simpl in *.
  - apply load_prefix; [by etrans|done].
  - assert (load σ3 o = load σ o) as Hload by (apply load_prefix; [by etrans|done]).
    by destruct e.
Qed.

End frame.
